(** * Pagers and gRPC transport of the aiplatform_v1beta1 client

    A shallow embedding of
    - [services/endpoint_service/pagers.py]   (class ListEndpointsPager),
    - [services/pipeline_service/pagers.py]   (class ListTrainingPipelinesPager),
    - [services/endpoint_service/transports/grpc.py]
                                             (class EndpointServiceGrpcTransport).

    The two pager classes are the same code up to the message types and
    the name of the repeated field; they are embedded once, with the
    class as a tag of the pager object.

    Python objects that are mutated in place and may be shared (the
    request messages and the pagers) live in a store and are referred
    to by location.  A generator is a small state machine: a program
    counter and the location of [self]; [next] is one resumption.
    The invoker is a function on the request's fields and on a state
    of its own; every call is recorded in the store.

    A transport is one object, passed along.  What lies underneath it
    (the base class constructor, [grpc_helpers.create_channel],
    [Channel.unary_unary], [operations_v1.OperationsClient]) is a
    parameter, and what it is asked to create is recorded. *)

From stdpp Require Import base option list strings gmap.

Set Default Proof Using "Type".

(** Locations in the object store. *)
Abbreviation loc := nat.

(** * Part I: the pagers *)

Module Pager.

(** ** Messages *)

Section Pagers.
Context {Item Query Err MState : Type}.

(** Modelled from the spec: the request message type of a list call
    ([ListEndpointsRequest], [ListTrainingPipelinesRequest]); its
    declaration lives in the [types] package.  The filter and query
    fields are kept together in [query]; [page_token] is the field
    the pager assigns. *)
Record ListRequest := mkRequest {
  query : Query;
  page_token : string
}.

(** Modelled from the spec: the response message type of a list call
    ([ListEndpointsResponse], [ListTrainingPipelinesResponse]): the
    repeated item field and the continuation token. *)
Record ListResponse := mkResponse {
  items : list Item;
  next_page_token : string
}.

(** [request.page_token = tok], on a message value. *)
Definition set_page_token (tok : string) (r : ListRequest) : ListRequest :=
  {| query := query r; page_token := tok |}.

(** Python truth value of a string: the empty string is false. *)
Definition truthy (s : string) : bool :=
  match s with
  | EmptyString => false
  | String _ _ => true
  end.

(** ** The invoker

    [method] takes a request and returns a response or raises; it may
    have state of its own.  It sees the fields of the request it is
    given at the time of the call. *)
Definition Method : Type :=
  ListRequest → MState → (Err + ListResponse) * MState.

(** An invoker that is a function of the request alone. *)
Definition pure_method (f : ListRequest → Err + ListResponse) : Method :=
  λ req ms, (f req, ms).

(** ** Pager objects *)

Inductive PagerClass := ListEndpointsPager | ListTrainingPipelinesPager.

(** The repeated field [__iter__] reads from a page. *)
Definition items_field (c : PagerClass) : string :=
  match c with
  | ListEndpointsPager => "endpoints"
  | ListTrainingPipelinesPager => "training_pipelines"
  end.

(** The instance attributes set by [__init__]. *)
Record Pager := mkPager {
  pager_class : PagerClass;
  _method : Method;
  _request : loc;
  _response : ListResponse
}.

Definition set_response (r : ListResponse) (p : Pager) : Pager :=
  {| pager_class := pager_class p; _method := _method p;
     _request := _request p; _response := r |}.

(** One call of the invoker, as seen from outside: the object passed,
    its fields at the time of the call, and what came back. *)
Record Call := mkCall {
  call_arg : loc;
  call_request : ListRequest;
  call_result : Err + ListResponse
}.

(** ** The store *)
Record World := mkWorld {
  requests : list ListRequest;
  pagers : list Pager;
  mstate : MState;
  calls : list Call
}.

Definition set_requests (rs : list ListRequest) (w : World) : World :=
  {| requests := rs; pagers := pagers w; mstate := mstate w; calls := calls w |}.
Definition set_pagers (ps : list Pager) (w : World) : World :=
  {| requests := requests w; pagers := ps; mstate := mstate w; calls := calls w |}.
Definition set_mstate (ms : MState) (w : World) : World :=
  {| requests := requests w; pagers := pagers w; mstate := ms; calls := calls w |}.
Definition log_call (c : Call) (w : World) : World :=
  {| requests := requests w; pagers := pagers w; mstate := mstate w;
     calls := calls w ++ [c] |}.

(** Modelled from the spec: the message constructor applied to a
    message, [ListEndpointsRequest(request)], clones it into storage
    of its own.  The clone is a new object with the same fields. *)
Definition ListRequest_copy (a : loc) (w : World) : option (loc * World) :=
  r ← requests w !! a;
  Some (length (requests w), set_requests (requests w ++ [r]) w).

(** [__init__(self, method, request, response)]; the result is the
    location of the new pager. *)
Definition __init__ (c : PagerClass) (method : Method) (request : loc)
    (response : ListResponse) (w : World) : option (loc * World) :=
  '(q, w1) ← ListRequest_copy request w;
  Some (length (pagers w1),
        set_pagers (pagers w1 ++ [mkPager c method q response]) w1).

(** A caller assigning to the fields of a request object it holds. *)
Definition caller_assign (a : loc) (r : ListRequest) (w : World) : World :=
  set_requests (<[a := r]> (requests w)) w.

(** ** Attribute lookup *)

Inductive AttrValue :=
  | AItems (l : list Item)
  | AToken (s : string).

(** Modelled from the spec: [getattr(response, name)] on a response
    message gives its two fields; any other name raises
    AttributeError ([None]). *)
Definition response_getattr (c : PagerClass) (r : ListResponse)
    (name : string) : option AttrValue :=
  if String.eqb name (items_field c) then Some (AItems (items r))
  else if String.eqb name "next_page_token" then Some (AToken (next_page_token r))
  else None.

(** [__getattr__(self, name)]. *)
Definition __getattr__ (self : loc) (name : string) (w : World)
    : option (option AttrValue) :=
  p ← pagers w !! self;
  Some (response_getattr (pager_class p) (_response p) name).

(** The names every Python object answers to by itself ([__class__],
    [__dict__], [__doc__], ...): they depend on the interpreter, not
    on this code. *)
Variable inherited : list string.

(** The names Python finds on the pager itself, before [__getattr__]
    is tried: the instance attributes, what the class body defines,
    and the inherited names. *)
Definition own_surface : list string :=
  ["_method"; "_request"; "_response"; "__init__"; "__getattr__";
   "pages"; "__iter__"; "__repr__"]%string ++ inherited.

Inductive Lookup :=
  | Own
  | Forwarded (v : option AttrValue).

(** [getattr(pager, name)]: normal lookup first, [__getattr__] as the
    fallback. *)
Definition Pager_lookup (self : loc) (name : string) (w : World)
    : option Lookup :=
  if bool_decide (name ∈ own_surface) then Some Own
  else Forwarded <$> __getattr__ self name w.

(** ** The [pages] generator *)

Inductive Pc := PcCreated | PcSuspended | PcClosed.

Record PagesGen := mkPagesGen {
  pg_self : loc;
  pg_pc : Pc
}.

(** Reading the [pages] property: a new generator, nothing run yet. *)
Definition pages (self : loc) : PagesGen := mkPagesGen self PcCreated.

Inductive Outcome (A : Type) :=
  | Yield (a : A)
  | StopIteration
  | Raise (e : Err).
Global Arguments Yield {A} a.
Global Arguments StopIteration {A}.
Global Arguments Raise {A} e.

(** [next(g)] for a [pages] generator.  From [PcCreated] the body runs
    to the first [yield]; from [PcSuspended] it resumes at the [while]
    test.  [None] is a dangling location. *)
Definition pages_next (g : PagesGen) (w : World)
    : option (Outcome ListResponse * PagesGen * World) :=
  match pg_pc g with
  | PcCreated =>
      self ← pagers w !! pg_self g;
      Some (Yield (_response self), mkPagesGen (pg_self g) PcSuspended, w)
  | PcSuspended =>
      self ← pagers w !! pg_self g;
      if truthy (next_page_token (_response self)) then
        req ← requests w !! _request self;
        let req' := set_page_token (next_page_token (_response self)) req in
        let w1 := set_requests (<[_request self := req']> (requests w)) w in
        let '(res, ms) := _method self req' (mstate w1) in
        let w2 := log_call (mkCall (_request self) req' res) (set_mstate ms w1) in
        match res with
        | inl e => Some (Raise e, mkPagesGen (pg_self g) PcClosed, w2)
        | inr r =>
            Some (Yield r, mkPagesGen (pg_self g) PcSuspended,
                  set_pagers (<[pg_self g := set_response r self]> (pagers w2)) w2)
        end
      else Some (StopIteration, mkPagesGen (pg_self g) PcClosed, w)
  | PcClosed => Some (StopIteration, g, w)
  end.

(** ** The [__iter__] generator *)

Inductive IterPc :=
  | ItCreated
  | ItRunning (pg : PagesGen) (buf : list Item)
  | ItClosed.

Record IterGen := mkIterGen {
  it_self : loc;
  it_pc : IterPc
}.

(** [iter(pager)]. *)
Definition __iter__ (self : loc) : IterGen := mkIterGen self ItCreated.

Inductive Event :=
  | EYield (x : Item)
  | ETau
  | EStop
  | ERaise (e : Err).

(** One step of the [__iter__] generator: enter the [for] loop, hand
    out the next item of the page at hand, or ask [pages] for the next
    page.  [next(it)] is the steps up to the first event that is not
    [ETau]. *)
Definition iter_step (g : IterGen) (w : World)
    : option (Event * IterGen * World) :=
  match it_pc g with
  | ItCreated =>
      Some (ETau, mkIterGen (it_self g) (ItRunning (pages (it_self g)) []), w)
  | ItRunning pg (x :: buf) =>
      Some (EYield x, mkIterGen (it_self g) (ItRunning pg buf), w)
  | ItRunning pg [] =>
      '(out, pg', w') ← pages_next pg w;
      match out with
      | Yield page =>
          Some (ETau, mkIterGen (it_self g) (ItRunning pg' (items page)), w')
      | StopIteration => Some (EStop, mkIterGen (it_self g) ItClosed, w')
      | Raise e => Some (ERaise e, mkIterGen (it_self g) ItClosed, w')
      end
  | ItClosed => Some (EStop, g, w)
  end.

(** ** Consumers *)

Inductive Status :=
  | Finished
  | Raised (e : Err)
  | OutOfFuel
  | Stuck.

(** [for page in g: ...], collecting the pages; [fuel] bounds the
    number of [next] calls. *)
Fixpoint pages_drain (fuel : nat) (g : PagesGen) (w : World)
    : list ListResponse * Status * World :=
  match fuel with
  | 0 => ([], OutOfFuel, w)
  | S n =>
      match pages_next g w with
      | None => ([], Stuck, w)
      | Some (Yield r, g', w') =>
          let '(l, st, w'') := pages_drain n g' w' in (r :: l, st, w'')
      | Some (StopIteration, _, w') => ([], Finished, w')
      | Some (Raise e, _, w') => ([], Raised e, w')
      end
  end.

(** [for item in it: ...], collecting the items; [fuel] bounds the
    number of generator steps. *)
Fixpoint iter_drain (fuel : nat) (g : IterGen) (w : World)
    : list Item * Status * World :=
  match fuel with
  | 0 => ([], OutOfFuel, w)
  | S n =>
      match iter_step g w with
      | None => ([], Stuck, w)
      | Some (EYield x, g', w') =>
          let '(l, st, w'') := iter_drain n g' w' in (x :: l, st, w'')
      | Some (ETau, g', w') => iter_drain n g' w'
      | Some (EStop, _, w') => ([], Finished, w')
      | Some (ERaise e, _, w') => ([], Raised e, w')
      end
  end.

(** ** The loop of [pages] on values

    What the [while] loop of [pages] does to the fields it touches,
    without the store: [req] is the pager's request, [resp] the
    retained response, [ms] the state of the invoker.  The result is
    the pages yielded, how the loop ended, the three values at the
    end and the calls made. *)
Fixpoint fetch_loop (fuel : nat) (m : Method) (req : ListRequest)
    (resp : ListResponse) (ms : MState)
    : list ListResponse * Status
      * (ListRequest * ListResponse * MState
         * list (ListRequest * (Err + ListResponse))) :=
  match fuel with
  | 0 => ([], OutOfFuel, (req, resp, ms, []))
  | S n =>
      if truthy (next_page_token resp) then
        let req' := set_page_token (next_page_token resp) req in
        match m req' ms with
        | (inl e, ms') => ([], Raised e, (req', resp, ms', [(req', inl e)]))
        | (inr r, ms') =>
            let '(l, st, (rq, rs, ms'', cs)) := fetch_loop n m req' r ms' in
            (r :: l, st, (rq, rs, ms'', (req', inr r) :: cs))
        end
      else ([], Finished, (req, resp, ms, []))
  end.

(** The store after the loop has run on the pager at [p] whose
    request is at [q]. *)
Definition store_after (p : loc) (c : PagerClass) (m : Method) (q : loc)
    (fin : ListRequest * ListResponse * MState
           * list (ListRequest * (Err + ListResponse)))
    (w : World) : World :=
  let '(rq, rs, ms, cs) := fin in
  {| requests := <[q := rq]> (requests w);
     pagers := <[p := mkPager c m q rs]> (pagers w);
     mstate := ms;
     calls := calls w ++ ((λ x, mkCall q x.1 x.2) <$> cs) |}.

(** The response the pager at [p] retains. *)
Definition retained (p : loc) (w : World) : option ListResponse :=
  _response <$> pagers w !! p.

(** The pages among the results of a list of calls. *)
Definition result_page (x : ListRequest * (Err + ListResponse))
    : option ListResponse :=
  match x.2 with
  | inr r => Some r
  | inl _ => None
  end.

Definition fetched (cs : list Call) : list ListResponse :=
  omap (λ c, result_page (call_request c, call_result c)) cs.

(** ** [__repr__] *)

(** [repr(response)], the message's own. *)
Variable repr_response : ListResponse → string.

(** [self.__class__.__name__]. *)
Definition class_name (c : PagerClass) : string :=
  match c with
  | ListEndpointsPager => "ListEndpointsPager"
  | ListTrainingPipelinesPager => "ListTrainingPipelinesPager"
  end.

(** [__repr__(self)]:
    ["{0}<{1!r}>".format(self.__class__.__name__, self._response)]. *)
Definition __repr__ (self : loc) (w : World) : option string :=
  p ← pagers w !! self;
  Some (class_name (pager_class p) +:+ "<"
        +:+ repr_response (_response p) +:+ ">").

(** ** Several generators of one pager

    Generators of the pager at [self] resumed one after the other, in
    any order: each resumption is given by the point at which the
    generator resumed stands.  The result is what each resumption
    gave and the store at the end. *)
Fixpoint resume_each (pcs : list Pc) (self : loc) (w : World)
    : option (list (Outcome ListResponse) * World) :=
  match pcs with
  | [] => Some ([], w)
  | pc :: pcs' =>
      '(out, _, w1) ← pages_next (mkPagesGen self pc) w;
      '(outs, w2) ← resume_each pcs' self w1;
      Some (out :: outs, w2)
  end.

(** A record of calls in which every call is made on the object at
    [q], with the fields of [r0] but for [page_token], which is the
    non-empty token of the page at hand: [cur] at first, then the
    page returned last. *)
Fixpoint threaded (q : loc) (r0 : ListRequest) (cur : ListResponse)
    (cs : list Call) : Prop :=
  match cs with
  | [] => True
  | call :: cs' =>
      call_arg call = q ∧
      next_page_token cur ≠ ""%string ∧
      call_request call = set_page_token (next_page_token cur) r0 ∧
      threaded q r0
        (match call_result call with
         | inr r => r
         | inl _ => cur
         end) cs'
  end.

(** The pages among the outcomes of resumptions. *)
Definition yielded (outs : list (Outcome ListResponse)) : list ListResponse :=
  omap (λ out, match out with Yield r => Some r | _ => None end) outs.

End Pagers.

End Pager.

(** * Part II: the gRPC transport *)

Module Grpc.

Section Transport.
Context {Credentials Channel Stub Client Ext : Type}.

(** What a caller may pass as [credentials]: [None], a credentials
    object, or the [False] that [__init__] itself puts there. *)
Inductive CredArg :=
  | CNone
  | CFalse
  | CObj (c : Credentials).

(** The instance attributes.  [_grpc_channel] is [None] while the
    attribute is not set ([hasattr] is false); [dict_operations_client]
    is the entry ["operations_client"] of the instance's [__dict__],
    [None] while there is none. *)
Record Transport := mkTransport {
  _host : string;
  _credentials : CredArg;
  _stubs : gmap string Stub;
  _grpc_channel : option Channel;
  dict_operations_client : option Client
}.

Definition set_grpc_channel (ch : Channel) (t : Transport) : Transport :=
  {| _host := _host t; _credentials := _credentials t; _stubs := _stubs t;
     _grpc_channel := Some ch;
     dict_operations_client := dict_operations_client t |}.
Definition set_stubs (s : gmap string Stub) (t : Transport) : Transport :=
  {| _host := _host t; _credentials := _credentials t; _stubs := s;
     _grpc_channel := _grpc_channel t;
     dict_operations_client := dict_operations_client t |}.
Definition set_operations_client (cl : Client) (t : Transport) : Transport :=
  {| _host := _host t; _credentials := _credentials t; _stubs := _stubs t;
     _grpc_channel := _grpc_channel t;
     dict_operations_client := Some cl |}.

(** The arguments of one [unary_unary] call. *)
Record StubSpec := mkStubSpec {
  path : string;
  request_serializer : string;
  response_deserializer : string
}.

(** What the libraries underneath were asked to create. *)
Inductive Creation :=
  | ChannelCreated (host : string) (cred : CredArg) (ch : Channel)
  | StubCreated (ch : Channel) (sp : StubSpec) (s : Stub)
  | ClientCreated (ch : Channel) (cl : Client).

(** The world outside the transport object: the state of the
    libraries and the record of their creations. *)
Record TWorld := mkTWorld {
  ext : Ext;
  created : list Creation
}.

(** The base class constructor [EndpointServiceTransport.__init__]
    (in [base.py]): from [host] and [credentials] it sets [_host] and
    [_credentials]. *)
Variable base_init : string → CredArg → Ext → (string * CredArg) * Ext.

(** [grpc_helpers.create_channel(host, credentials=..., scopes=...)]. *)
Variable grpc_helpers_create_channel : string → CredArg → Ext → Channel * Ext.

(** [channel.unary_unary(path, request_serializer=...,
    response_deserializer=...)]. *)
Variable unary_unary : Channel → StubSpec → Ext → Stub * Ext.

(** [operations_v1.OperationsClient(channel)]. *)
Variable OperationsClient : Channel → Ext → Client * Ext.

(** [__init__(self, *, host, credentials, channel)]. *)
Definition __init__ (host : string) (credentials : CredArg)
    (channel : option Channel) (w : TWorld) : Transport * TWorld :=
  let credentials :=
    match channel with
    | Some _ => CFalse
    | None => credentials
    end in
  let '((h, c), e) := base_init host credentials (ext w) in
  let self := mkTransport h c ∅ None None in
  (match channel with
   | Some ch => set_grpc_channel ch self
   | None => self
   end, mkTWorld e (created w)).

(** [create_channel(cls, host, credentials)]. *)
Definition create_channel (host : string) (credentials : CredArg)
    (w : TWorld) : Channel * TWorld :=
  let '(ch, e) := grpc_helpers_create_channel host credentials (ext w) in
  (ch, mkTWorld e (created w ++ [ChannelCreated host credentials ch])).

(** The [grpc_channel] property. *)
Definition grpc_channel (self : Transport) (w : TWorld)
    : Channel * Transport * TWorld :=
  match _grpc_channel self with
  | None =>
      let '(ch, w') := create_channel (_host self) (_credentials self) w in
      (ch, set_grpc_channel ch self, w')
  | Some ch => (ch, self, w)
  end.

(** The [operations_client] property. *)
Definition operations_client (self : Transport) (w : TWorld)
    : Client * Transport * TWorld :=
  match dict_operations_client self with
  | None =>
      let '(ch, self1, w1) := grpc_channel self w in
      let '(cl, e) := OperationsClient ch (ext w1) in
      (cl, set_operations_client cl self1,
       mkTWorld e (created w1 ++ [ClientCreated ch cl]))
  | Some cl => (cl, self, w)
  end.

(** The body shared by the seven stub properties:
    [if name not in self._stubs: self._stubs[name] =
       self.grpc_channel.unary_unary(...)]; [return self._stubs[name]]. *)
Definition stub_property (name : string) (sp : StubSpec)
    (self : Transport) (w : TWorld) : Stub * Transport * TWorld :=
  match _stubs self !! name with
  | Some s => (s, self, w)
  | None =>
      let '(ch, self1, w1) := grpc_channel self w in
      let '(s, e) := unary_unary ch sp (ext w1) in
      (s, set_stubs (<[name := s]> (_stubs self1)) self1,
       mkTWorld e (created w1 ++ [StubCreated ch sp s]))
  end.

Definition create_endpoint_stub : StubSpec :=
  mkStubSpec "/google.cloud.aiplatform.v1beta1.EndpointService/CreateEndpoint"
    "endpoint_service.CreateEndpointRequest.serialize"
    "operations.Operation.FromString".
Definition get_endpoint_stub : StubSpec :=
  mkStubSpec "/google.cloud.aiplatform.v1beta1.EndpointService/GetEndpoint"
    "endpoint_service.GetEndpointRequest.serialize"
    "endpoint.Endpoint.deserialize".
Definition list_endpoints_stub : StubSpec :=
  mkStubSpec "/google.cloud.aiplatform.v1beta1.EndpointService/ListEndpoints"
    "endpoint_service.ListEndpointsRequest.serialize"
    "endpoint_service.ListEndpointsResponse.deserialize".
Definition update_endpoint_stub : StubSpec :=
  mkStubSpec "/google.cloud.aiplatform.v1beta1.EndpointService/UpdateEndpoint"
    "endpoint_service.UpdateEndpointRequest.serialize"
    "gca_endpoint.Endpoint.deserialize".
Definition delete_endpoint_stub : StubSpec :=
  mkStubSpec "/google.cloud.aiplatform.v1beta1.EndpointService/DeleteEndpoint"
    "endpoint_service.DeleteEndpointRequest.serialize"
    "operations.Operation.FromString".
Definition deploy_model_stub : StubSpec :=
  mkStubSpec "/google.cloud.aiplatform.v1beta1.EndpointService/DeployModel"
    "endpoint_service.DeployModelRequest.serialize"
    "operations.Operation.FromString".
Definition undeploy_model_stub : StubSpec :=
  mkStubSpec "/google.cloud.aiplatform.v1beta1.EndpointService/UndeployModel"
    "endpoint_service.UndeployModelRequest.serialize"
    "operations.Operation.FromString".

(** The seven stub properties. *)
Definition create_endpoint :=
  stub_property "create_endpoint" create_endpoint_stub.
Definition get_endpoint :=
  stub_property "get_endpoint" get_endpoint_stub.
Definition list_endpoints :=
  stub_property "list_endpoints" list_endpoints_stub.
Definition update_endpoint :=
  stub_property "update_endpoint" update_endpoint_stub.
Definition delete_endpoint :=
  stub_property "delete_endpoint" delete_endpoint_stub.
Definition deploy_model :=
  stub_property "deploy_model" deploy_model_stub.
Definition undeploy_model :=
  stub_property "undeploy_model" undeploy_model_stub.

(** ** Clients of the transport *)

Inductive Access :=
  | GrpcChannel
  | OperationsClientProperty
  | CreateEndpoint
  | GetEndpoint
  | ListEndpoints
  | UpdateEndpoint
  | DeleteEndpoint
  | DeployModel
  | UndeployModel.

Inductive Obj :=
  | OChannel (ch : Channel)
  | OStub (s : Stub)
  | OClient (cl : Client).

Definition as_stub (r : Stub * Transport * TWorld) : Obj * Transport * TWorld :=
  let '(s, t, w) := r in (OStub s, t, w).

(** Reading one property of the transport. *)
Definition access (a : Access) (self : Transport) (w : TWorld)
    : Obj * Transport * TWorld :=
  match a with
  | GrpcChannel =>
      let '(ch, t, w') := grpc_channel self w in (OChannel ch, t, w')
  | OperationsClientProperty =>
      let '(cl, t, w') := operations_client self w in (OClient cl, t, w')
  | CreateEndpoint => as_stub (create_endpoint self w)
  | GetEndpoint => as_stub (get_endpoint self w)
  | ListEndpoints => as_stub (list_endpoints self w)
  | UpdateEndpoint => as_stub (update_endpoint self w)
  | DeleteEndpoint => as_stub (delete_endpoint self w)
  | DeployModel => as_stub (deploy_model self w)
  | UndeployModel => as_stub (undeploy_model self w)
  end.

(** Reading properties one after the other. *)
Fixpoint accesses (l : list Access) (self : Transport) (w : TWorld)
    : list Obj * Transport * TWorld :=
  match l with
  | [] => ([], self, w)
  | a :: l' =>
      let '(o, t, w1) := access a self w in
      let '(os, t', w2) := accesses l' t w1 in
      (o :: os, t', w2)
  end.

Definition is_channel_creation (c : Creation) : bool :=
  match c with
  | ChannelCreated _ _ _ => true
  | _ => false
  end.

Definition is_stub_creation (p : string) (c : Creation) : bool :=
  match c with
  | StubCreated _ sp _ => String.eqb (path sp) p
  | _ => false
  end.

Definition is_client_creation (c : Creation) : bool :=
  match c with
  | ClientCreated _ _ => true
  | _ => false
  end.

(** How many channels, how many stubs for a path, and how many
    operations clients were created. *)
Definition channels_created (w : TWorld) : nat :=
  length (List.filter is_channel_creation (created w)).
Definition stubs_created (p : string) (w : TWorld) : nat :=
  length (List.filter (is_stub_creation p) (created w)).
Definition clients_created (w : TWorld) : nat :=
  length (List.filter is_client_creation (created w)).

(** The key in [_stubs] and the arguments of [unary_unary] behind a
    stub property; [None] for the two other properties. *)
Definition stub_of (a : Access) : option (string * StubSpec) :=
  match a with
  | GrpcChannel => None
  | OperationsClientProperty => None
  | CreateEndpoint => Some ("create_endpoint"%string, create_endpoint_stub)
  | GetEndpoint => Some ("get_endpoint"%string, get_endpoint_stub)
  | ListEndpoints => Some ("list_endpoints"%string, list_endpoints_stub)
  | UpdateEndpoint => Some ("update_endpoint"%string, update_endpoint_stub)
  | DeleteEndpoint => Some ("delete_endpoint"%string, delete_endpoint_stub)
  | DeployModel => Some ("deploy_model"%string, deploy_model_stub)
  | UndeployModel => Some ("undeploy_model"%string, undeploy_model_stub)
  end.

(** What the transport holds for a property, if anything yet. *)
Definition cached (a : Access) (t : Transport) : option Obj :=
  match stub_of a with
  | Some (name, _) => OStub <$> _stubs t !! name
  | None =>
      match a with
      | OperationsClientProperty => OClient <$> dict_operations_client t
      | _ => OChannel <$> _grpc_channel t
      end
  end.

(** How many more channels, stubs for a property, and operations
    clients the transport may still create: one while nothing is
    held, none after. *)
Definition client_budget (t : Transport) : nat :=
  match dict_operations_client t with
  | Some _ => 0
  | None => 1
  end.
Definition channel_budget (t : Transport) : nat :=
  match _grpc_channel t with
  | Some _ => 0
  | None => 1
  end.
Definition stub_budget (name : string) (t : Transport) : nat :=
  match _stubs t !! name with
  | Some _ => 0
  | None => 1
  end.

(** What a read leaves of the counters: a creation uses up the
    budget of what it creates. *)
Definition conserved (t : Transport) (w : TWorld) (t' : Transport)
    (w' : TWorld) : Prop :=
  channels_created w' + channel_budget t'
  = channels_created w + channel_budget t ∧
  clients_created w' + client_budget t'
  = clients_created w + client_budget t ∧
  ∀ b name sp, stub_of b = Some (name, sp) →
    stubs_created (path sp) w' + stub_budget name t'
    = stubs_created (path sp) w + stub_budget name t.

(** The channel a recorded creation made, or was made on. *)
Definition creation_channel (cr : Creation) : Channel :=
  match cr with
  | ChannelCreated _ _ ch => ch
  | StubCreated ch _ _ => ch
  | ClientCreated ch _ => ch
  end.

(** From a key of [_stubs] to the name of the RPC: the words between
    the underscores (character 95), capitalised and joined. *)
Definition upper (a : Ascii.ascii) : Ascii.ascii :=
  let n := Ascii.nat_of_ascii a in
  if (97 <=? n) && (n <=? 122) then Ascii.ascii_of_nat (n - 32) else a.

Fixpoint camel_from (start : bool) (s : string) : string :=
  match s with
  | EmptyString => EmptyString
  | String a s' =>
      if Ascii.eqb a (Ascii.ascii_of_nat 95) then camel_from true s'
      else String (if start then upper a else a) (camel_from false s')
  end.

Definition camel (s : string) : string := camel_from true s.

(** The record of the creation of the channel [ch] by [t], when [t]
    holds none yet. *)
Definition channel_part (t : Transport) (ch : Channel) : list Creation :=
  match _grpc_channel t with
  | Some _ => []
  | None => [ChannelCreated (_host t) (_credentials t) ch]
  end.

(** The creations [new] account for what the transport holds: they
    were all made on its channel, none was made while it has none,
    and every stub and client it holds is among them, each stub with
    the arguments of its property. *)
Definition accounted (t : Transport) (new : list Creation) : Prop :=
  (∀ ch, _grpc_channel t = Some ch →
     Forall (λ cr, creation_channel cr = ch) new) ∧
  (_grpc_channel t = None →
     new = [] ∧ _stubs t = ∅ ∧ dict_operations_client t = None) ∧
  (∀ a name sp s, stub_of a = Some (name, sp) →
     _stubs t !! name = Some s → ∃ ch, StubCreated ch sp s ∈ new) ∧
  (∀ cl, dict_operations_client t = Some cl →
     ∃ ch, ClientCreated ch cl ∈ new).

End Transport.

End Grpc.

(** * Concrete stores and invokers *)

Module Examples.
Import Pager.

Definition request0 : @ListRequest string :=
  mkRequest "projects/p/locations/l" "".

Definition page1 : @ListResponse nat := mkResponse [1; 2] "abc".
Definition page2 : @ListResponse nat := mkResponse [3] "".

(** The server's answer to a request: one token is known. *)
Definition lookup_page (req : @ListRequest string)
    : string + @ListResponse nat :=
  if String.eqb (page_token req) "abc" then inr page2
  else inl "unknown page token"%string.

(** An invoker that answers with [lookup_page] and counts its calls. *)
Definition invoker : @Method nat string string nat :=
  λ req n, (lookup_page req, S n).

(** Three pages chained by their tokens, and their invoker. *)
Definition pageA : @ListResponse nat := mkResponse [10] "b".
Definition pageB : @ListResponse nat := mkResponse [20; 21] "c".
Definition pageC : @ListResponse nat := mkResponse [] "".

Definition chain : @Method nat string string nat :=
  λ req n,
    (if String.eqb (page_token req) "b" then inr pageB
     else if String.eqb (page_token req) "c" then inr pageC
     else inl "unknown page token"%string, S n).

(** An invoker that is down. *)
Definition failing : @Method nat string string nat :=
  λ req n, (inl "unavailable"%string, S n).

(** An invoker that always has one more page. *)
Definition endless : @Method nat string string nat :=
  λ req n, (inr (mkResponse [n] "more"), S n).

(** Some of the names every object has. *)
Definition object_names : list string :=
  ["__class__"; "__dict__"; "__doc__"; "__module__"]%string.

(** A store holding the caller's request and nothing else. *)
Definition world0 : @World nat string string nat :=
  mkWorld [request0] [] 0 [].

(** The store with a new pager on [m] and [resp]. *)
Definition built (m : @Method nat string string nat)
    (resp : @ListResponse nat) : @World nat string string nat :=
  mkWorld [request0; request0] [mkPager ListEndpointsPager m 1 resp] 0 [].

(** The store after the pager on [chain] has fetched [pageB] and
    [pageC]. *)
Definition world_chain : @World nat string string nat :=
  mkWorld [request0; mkRequest (query request0) "c"]
    [mkPager ListEndpointsPager chain 1 pageC] 2
    [mkCall 1 (mkRequest (query request0) "b") (inr pageB);
     mkCall 1 (mkRequest (query request0) "c") (inr pageC)].

(** The store after the pager on [invoker] has fetched [page2]. *)
Definition request1 : @ListRequest string := mkRequest (query request0) "abc".
Definition world2 : @World nat string string nat :=
  mkWorld [request0; request1] [mkPager ListEndpointsPager invoker 1 page2]
    1 [mkCall 1 request1 (inr page2)].

(** The store after a pager on [pure_method lookup_page] has fetched
    [page2]: the invoker keeps no state. *)
Definition world_pure : @World nat string string nat :=
  mkWorld [request0; request1]
    [mkPager ListEndpointsPager (pure_method lookup_page) 1 page2]
    0 [mkCall 1 request1 (inr page2)].

(** The store after the pager on [failing] has tried to fetch. *)
Definition world_failed : @World nat string string nat :=
  mkWorld [request0; request1] [mkPager ListEndpointsPager failing 1 page1]
    1 [mkCall 1 request1 (inl "unavailable"%string)].

(** A world of libraries that number the objects they create. *)
Definition base_init (host : string) (c : @Grpc.CredArg string) (e : nat)
    : (string * @Grpc.CredArg string) * nat :=
  ((host +:+ ":443")%string, c, e).
Definition new_channel (host : string) (c : @Grpc.CredArg string) (e : nat)
    : nat * nat := (e, S e).
Definition new_stub (ch : nat) (sp : Grpc.StubSpec) (e : nat) : nat * nat :=
  (e, S e).
Definition new_client (ch : nat) (e : nat) : nat * nat := (e, S e).
Definition tworld0 : @Grpc.TWorld string nat nat nat nat :=
  Grpc.mkTWorld 100 [].
Definition transport_fresh : @Grpc.Transport string nat nat nat :=
  Grpc.mkTransport "aiplatform.googleapis.com:443" (Grpc.CObj "key"%string)
    ∅ None None.
Definition transport_given : @Grpc.Transport string nat nat nat :=
  Grpc.mkTransport "aiplatform.googleapis.com:443" Grpc.CFalse ∅ (Some 7)
    None.
Definition transport_read : @Grpc.Transport string nat nat nat :=
  Grpc.mkTransport "aiplatform.googleapis.com:443" (Grpc.CObj "key"%string)
    (<["list_endpoints"%string := 101]> ∅) (Some 100) None.
Definition tworld_read : @Grpc.TWorld string nat nat nat nat :=
  Grpc.mkTWorld 102
    [Grpc.ChannelCreated "aiplatform.googleapis.com:443"
       (Grpc.CObj "key"%string) 100;
     Grpc.StubCreated 100 Grpc.list_endpoints_stub 101].

End Examples.

(** * Part III: the pagers, theorems *)

Section PagerTheory.
Import Pager.
Context {Item Query Err MState : Type}.

Abbreviation Request := (@ListRequest Query).
Abbreviation Response := (@ListResponse Item).
Abbreviation Store := (@World Item Query Err MState).
Abbreviation Invoker := (@Method Item Query Err MState).

Variable inherited : list string.

Implicit Types (w : Store) (m : Invoker) (req rq : Request)
  (resp : Response) (p q a : loc) (c : PagerClass).

Local Abbreviation own_names := (own_surface inherited).
Local Abbreviation Pager_getattr := (Pager_lookup inherited).

(** ** The store *)

Lemma truthy_nonempty (s : string) : truthy s = true ↔ s ≠ ""%string.
Proof. destruct s; simpl; split; (done || congruence). Qed.

Lemma truthy_empty (s : string) : truthy s = false ↔ s = ""%string.
Proof. destruct s; simpl; split; (done || congruence). Qed.

Lemma store_after_id w p c m q req resp :
  pagers w !! p = Some (mkPager c m q resp) →
  requests w !! q = Some req →
  store_after p c m q (req, resp, mstate w, []) w = w.
Proof.
  intros Hp Hq. destruct w as [rs ps ms cs]; simpl in *.
  unfold store_after; simpl.
  by rewrite !list_insert_id, app_nil_r.
Qed.

Lemma store_after_twice w p c m q rq1 rs1 ms1 cs1 rq2 rs2 ms2 cs2 :
  store_after p c m q (rq2, rs2, ms2, cs2)
    (store_after p c m q (rq1, rs1, ms1, cs1) w)
  = store_after p c m q (rq2, rs2, ms2, cs1 ++ cs2) w.
Proof.
  unfold store_after; simpl.
  by rewrite !list_insert_insert_eq, fmap_app, app_assoc.
Qed.

Lemma store_after_mstate w p c m q rq rs ms cs :
  mstate (store_after p c m q (rq, rs, ms, cs) w) = ms.
Proof. done. Qed.

Lemma store_after_calls w p c m q rq rs ms cs :
  calls (store_after p c m q (rq, rs, ms, cs) w)
  = calls w ++ ((λ x, mkCall q x.1 x.2) <$> cs).
Proof. done. Qed.

Lemma store_after_pager w p c m q resp0 rq rs ms cs :
  pagers w !! p = Some (mkPager c m q resp0) →
  pagers (store_after p c m q (rq, rs, ms, cs) w) !! p
  = Some (mkPager c m q rs).
Proof.
  intros Hp. simpl. apply list_lookup_insert_eq. by eapply lookup_lt_Some.
Qed.

Lemma store_after_request w p c m q req0 rq rs ms cs :
  requests w !! q = Some req0 →
  requests (store_after p c m q (rq, rs, ms, cs) w) !! q = Some rq.
Proof.
  intros Hq. simpl. apply list_lookup_insert_eq. by eapply lookup_lt_Some.
Qed.

Lemma store_after_other_request w p c m q fin a :
  a ≠ q → requests (store_after p c m q fin w) !! a = requests w !! a.
Proof.
  intros Hne. destruct fin as [[[rq rs] ms] cs]. simpl.
  by apply list_lookup_insert_ne.
Qed.

(** ** One resumption of [pages] *)

Lemma pages_next_created w p pg :
  pagers w !! p = Some pg →
  pages_next (pages p) w
  = Some (Yield (_response pg), mkPagesGen p PcSuspended, w).
Proof. intros Hp. unfold pages_next; simpl. by rewrite Hp. Qed.

Lemma pages_next_suspended w p c m q req resp :
  pagers w !! p = Some (mkPager c m q resp) →
  requests w !! q = Some req →
  pages_next (mkPagesGen p PcSuspended) w
  = Some
      (if truthy (next_page_token resp) then
         let req' := set_page_token (next_page_token resp) req in
         match m req' (mstate w) with
         | (inl e, ms) =>
             (Raise e, mkPagesGen p PcClosed,
              store_after p c m q (req', resp, ms, [(req', inl e)]) w)
         | (inr r, ms) =>
             (Yield r, mkPagesGen p PcSuspended,
              store_after p c m q (req', r, ms, [(req', inr r)]) w)
         end
       else (StopIteration, mkPagesGen p PcClosed, w)).
Proof.
  intros Hp Hq. unfold pages_next; simpl. rewrite Hp; simpl.
  destruct (truthy (next_page_token resp)); [|done].
  rewrite Hq; simpl.
  destruct (m _ (mstate w)) as [[e|r] ms]; simpl.
  - do 3 f_equal. unfold store_after, log_call, set_mstate, set_requests; simpl.
    by rewrite (list_insert_id _ _ _ Hp).
  - done.
Qed.

(** ** The traversal and the loop on values *)

Lemma pages_drain_suspended n w p c m q req resp :
  pagers w !! p = Some (mkPager c m q resp) →
  requests w !! q = Some req →
  pages_drain n (mkPagesGen p PcSuspended) w
  = let '(l, st, fin) := fetch_loop n m req resp (mstate w) in
    (l, st, store_after p c m q fin w).
Proof.
  revert w req resp. induction n as [|n IH]; intros w req resp Hp Hq.
  - cbn [pages_drain fetch_loop].
    by rewrite (store_after_id _ _ _ _ _ _ _ Hp Hq).
  - cbn [pages_drain fetch_loop].
    rewrite (pages_next_suspended _ _ _ _ _ _ _ Hp Hq).
    destruct (truthy (next_page_token resp)).
    + cbv zeta.
      destruct (m _ (mstate w)) as [[e|r] ms] eqn:Hm; [done|].
      rewrite (IH _ (set_page_token (next_page_token resp) req) r);
        [| by eapply store_after_pager | by eapply store_after_request].
      rewrite store_after_mstate.
      destruct (fetch_loop n m _ r ms) as [[l st] [[[rq rs] ms'] cs]].
      by rewrite store_after_twice.
    + by rewrite (store_after_id _ _ _ _ _ _ _ Hp Hq).
Qed.

Lemma pages_drain_created n w p c m q req resp :
  pagers w !! p = Some (mkPager c m q resp) →
  requests w !! q = Some req →
  pages_drain (S n) (pages p) w
  = let '(l, st, fin) := fetch_loop n m req resp (mstate w) in
    (resp :: l, st, store_after p c m q fin w).
Proof.
  intros Hp Hq. cbn [pages_drain].
  rewrite (pages_next_created _ _ _ Hp); simpl.
  rewrite (pages_drain_suspended _ _ _ _ _ _ _ _ Hp Hq).
  by destruct (fetch_loop n m req resp (mstate w)) as [[l st] fin].
Qed.

(** ** Construction *)

Lemma init_store c m a resp w (r0 : Request) :
  requests w !! a = Some r0 →
  __init__ c m a resp w
  = Some (length (pagers w),
          {| requests := requests w ++ [r0];
             pagers := pagers w ++ [mkPager c m (length (requests w)) resp];
             mstate := mstate w; calls := calls w |}).
Proof.
  intros Ha. unfold __init__, ListRequest_copy. by rewrite Ha.
Qed.

Lemma init_inv c m a resp w p w0 :
  __init__ c m a resp w = Some (p, w0) →
  ∃ r0, requests w !! a = Some r0 ∧
    p = length (pagers w) ∧
    pagers w0 !! p = Some (mkPager c m (length (requests w)) resp) ∧
    requests w0 !! length (requests w) = Some r0 ∧
    requests w0 = requests w ++ [r0] ∧
    pagers w0 = pagers w ++ [mkPager c m (length (requests w)) resp] ∧
    mstate w0 = mstate w ∧ calls w0 = calls w.
Proof.
  intros Hi. destruct (requests w !! a) as [r0|] eqn:Ha.
  - rewrite (init_store _ _ _ _ _ _ Ha) in Hi. injection Hi as <- <-.
    exists r0; simpl. split_and!; try done.
    + by rewrite list_lookup_middle.
    + by rewrite list_lookup_middle.
  - unfold __init__, ListRequest_copy in Hi. by rewrite Ha in Hi.
Qed.

(** ** The loop on values: what it yields and what it calls *)

Lemma fetch_loop_cases n m req resp ms l st rq rs ms' cs :
  fetch_loop n m req resp ms = (l, st, (rq, rs, ms', cs)) →
  (n = 0 ∧ l = [] ∧ st = OutOfFuel ∧ rq = req ∧ rs = resp ∧ ms' = ms ∧ cs = [])
  ∨ (∃ n', n = S n' ∧ next_page_token resp = ""%string ∧ l = [] ∧
       st = Finished ∧ rq = req ∧ rs = resp ∧ ms' = ms ∧ cs = [])
  ∨ (∃ n' e, n = S n' ∧ next_page_token resp ≠ ""%string ∧
       m (set_page_token (next_page_token resp) req) ms = (inl e, ms') ∧
       l = [] ∧ st = Raised e ∧
       rq = set_page_token (next_page_token resp) req ∧ rs = resp ∧
       cs = [(rq, inl e)])
  ∨ (∃ n' r ms1 l1 cs1, n = S n' ∧ next_page_token resp ≠ ""%string ∧
       m (set_page_token (next_page_token resp) req) ms = (inr r, ms1) ∧
       fetch_loop n' m (set_page_token (next_page_token resp) req) r ms1
       = (l1, st, (rq, rs, ms', cs1)) ∧
       l = r :: l1 ∧
       cs = (set_page_token (next_page_token resp) req, inr r) :: cs1).
Proof.
  destruct n as [|n]; cbn [fetch_loop]; intros Hf.
  - left. by simplify_eq.
  - right. destruct (truthy (next_page_token resp)) eqn:Ht.
    + apply truthy_nonempty in Ht. right.
      destruct (m _ ms) as [[e|r] ms1] eqn:Hm.
      * left. simplify_eq. by exists n, e.
      * right.
        destruct (fetch_loop n m _ r ms1) as [[l1 st1] [[[rq1 rs1] ms2] cs1]] eqn:Hl.
        simplify_eq. by exists n, r, ms1, l1, cs1.
    + apply truthy_empty in Ht. left. simplify_eq. by exists n.
Qed.

Lemma fetch_loop_pages n m req resp ms l st rq rs ms' cs :
  fetch_loop n m req resp ms = (l, st, (rq, rs, ms', cs)) →
  l = omap result_page cs ∧ last (resp :: l) = Some rs.
Proof.
  revert req resp ms l cs. induction n as [|n IH]; intros req resp ms l cs Hf;
    apply fetch_loop_cases in Hf
      as [(?&?&?&?&?&?&?)|[(n'&?&?&?&?&?&?&?&?)|[(n'&e&?&?&?&?&?&?&?&?)
         |(n'&r&ms1&l1&cs1&?&?&?&Hl&?&?)]]];
    simplify_eq; try done.
  destruct (IH _ _ _ _ _ Hl) as [-> Hlast]. split; [done|].
  by rewrite last_cons, Hlast.
Qed.

Lemma fetch_loop_status n m req resp ms l st rq rs ms' cs :
  fetch_loop n m req resp ms = (l, st, (rq, rs, ms', cs)) →
  st ≠ Stuck ∧
  (st = Finished → next_page_token rs = ""%string) ∧
  (st = OutOfFuel → length l = n ∧ length cs = n) ∧
  (∀ e, st = Raised e →
     ∃ cs', cs = cs' ++ [(rq, inl e)] ∧ length cs' = length l ∧
       next_page_token rs ≠ ""%string) ∧
  ((∀ e, st ≠ Raised e) → length cs = length l).
Proof.
  revert req resp ms l cs. induction n as [|n IH]; intros req resp ms l cs Hf;
    apply fetch_loop_cases in Hf
      as [(?&?&?&?&?&?&?)|[(n'&?&?&?&?&?&?&?&?)|[(n'&e&?&?&?&?&?&?&?&?)
         |(n'&r&ms1&l1&cs1&?&?&?&Hl&?&?)]]];
    simplify_eq.
  - split_and!; try done.
  - split_and!; try done.
  - split_and!; try done.
    + intros e' [= <-]. by exists [].
    + intros He. by destruct (He e).
  - destruct (IH _ _ _ _ _ Hl) as (Hs & Hfin & Hfuel & Hraise & Hlen).
    split_and!; try done.
    + intros Hst. destruct (Hfuel Hst) as [Hl1 Hc1]. simpl. by rewrite Hl1, Hc1.
    + intros e He. destruct (Hraise e He) as (cs' & -> & Hl' & Hne).
      eexists (_ :: cs'). split_and!; [done| |done]. simpl. by rewrite Hl'.
    + intros He. simpl. by rewrite (Hlen He).
Qed.

Lemma fetch_loop_threading n m req resp ms l st rq rs ms' cs :
  fetch_loop n m req resp ms = (l, st, (rq, rs, ms', cs)) →
  ∀ i x, cs !! i = Some x →
    ∃ prev, (resp :: l) !! i = Some prev ∧
      next_page_token prev ≠ ""%string ∧
      x.1 = set_page_token (next_page_token prev) req ∧
      match x.2 with
      | inr r => l !! i = Some r
      | inl e => st = Raised e ∧ length l = i
      end.
Proof.
  revert req resp ms l cs. induction n as [|n IH]; intros req resp ms l cs Hf;
    apply fetch_loop_cases in Hf
      as [(?&?&?&?&?&?&?)|[(n'&?&?&?&?&?&?&?&?)|[(n'&e&?&?&?&?&?&?&?&?)
         |(n'&r&ms1&l1&cs1&?&?&?&Hl&?&?)]]];
    simplify_eq; intros i x Hx; try done.
  - destruct i as [|i]; [|done]. simplify_eq/=. by exists resp.
  - destruct i as [|i]; simplify_eq/=.
    + by exists resp.
    + destruct (IH _ _ _ _ _ Hl i x Hx) as (prev & Hprev & Hne & Hreq & Hres).
      exists prev. split_and!; try done.
      destruct (x.2) as [e|r']; [|done].
      destruct Hres as [-> <-]. done.
Qed.

Lemma fetch_loop_request n m req resp ms l st rq rs ms' cs :
  fetch_loop n m req resp ms = (l, st, (rq, rs, ms', cs)) →
  query rq = query req ∧
  match last cs with
  | Some x => rq = x.1
  | None => rq = req
  end.
Proof.
  revert req resp ms l cs. induction n as [|n IH]; intros req resp ms l cs Hf;
    apply fetch_loop_cases in Hf
      as [(?&?&?&?&?&?&?)|[(n'&?&?&?&?&?&?&?&?)|[(n'&e&?&?&?&?&?&?&?&?)
         |(n'&r&ms1&l1&cs1&?&?&?&Hl&?&?)]]];
    simplify_eq; try done.
  destruct (IH _ _ _ _ _ Hl) as [Hq Hlast]. split; [done|].
  rewrite last_cons. destruct (last cs1) as [x|]; [done|]. by subst.
Qed.

Lemma fetched_calls q (cs : list (Request * (Err + Response))) :
  fetched ((λ x, mkCall q x.1 x.2) <$> cs) = omap result_page cs.
Proof.
  induction cs as [|[rq res] cs IH]; [done|].
  cbn [fmap list_fmap]. unfold fetched in *. cbn [omap list_omap].
  rewrite IH. done.
Qed.

(** ** A traversal of a new pager *)

Lemma fresh_traversal c m a resp w p w0 n l st w1 :
  __init__ c m a resp w = Some (p, w0) →
  pages_drain (S n) (pages p) w0 = (l, st, w1) →
  ∃ (r0 rq : Request) rs ms (cs : list (Request * (Err + Response))) l',
    requests w !! a = Some r0 ∧
    pagers w0 !! p = Some (mkPager c m (length (requests w)) resp) ∧
    requests w0 !! length (requests w) = Some r0 ∧
    fetch_loop n m r0 resp (mstate w) = (l', st, (rq, rs, ms, cs)) ∧
    l = resp :: l' ∧
    w1 = store_after p c m (length (requests w)) (rq, rs, ms, cs) w0 ∧
    calls w0 = calls w.
Proof.
  intros Hi Hd.
  destruct (init_inv _ _ _ _ _ _ _ Hi)
    as (r0 & Ha & -> & Hp & Hq & _ & _ & Hms & Hcs).
  rewrite (pages_drain_created _ _ _ _ _ _ _ _ Hp Hq), Hms in Hd.
  destruct (fetch_loop n m r0 resp (mstate w))
    as [[l' st'] [[[rq rs] ms] cs]] eqn:Hf.
  simplify_eq. by exists r0, rq, rs, ms, cs, l'.
Qed.

(** C1. A traversal of the [pages] of a new pager yields the response
    given to the constructor first and then exactly the pages the
    invoker returns; the i-th call happens only when the i-th page
    yielded has a non-empty [next_page_token], is made on the pager's
    own request object, whose [page_token] is then exactly that token
    (the other fields being those of the request given to the
    constructor), and its result is retained and is the next page
    yielded.  The traversal finishes only on an empty token. *)
Theorem pages_token_threading c m a resp w p w0 n l st w1 :
  __init__ c m a resp w = Some (p, w0) →
  pages_drain (S n) (pages p) w0 = (l, st, w1) →
  ∃ (r0 : Request) (q : loc) (cs : list Call) rs,
    requests w !! a = Some r0 ∧
    l = resp :: fetched cs ∧
    calls w1 = calls w ++ cs ∧
    (∀ i call, cs !! i = Some call →
       ∃ prev, l !! i = Some prev ∧
         next_page_token prev ≠ ""%string ∧
         call_arg call = q ∧
         call_request call = set_page_token (next_page_token prev) r0 ∧
         match call_result call with
         | inr r => l !! S i = Some r
         | inl e => st = Raised e ∧ length l = S i
         end) ∧
    last l = Some rs ∧
    pagers w1 !! p = Some (mkPager c m q rs) ∧
    match last cs with
    | Some call => requests w1 !! q = Some (call_request call)
    | None => requests w1 !! q = Some r0
    end ∧
    (st = Finished → next_page_token rs = ""%string) ∧
    (st = OutOfFuel → length l = S n) ∧
    st ≠ Stuck.
Proof.
  intros Hi Hd.
  destruct (fresh_traversal _ _ _ _ _ _ _ _ _ _ _ Hi Hd)
    as (r0 & rq & rs & ms & cs & l' & Ha & Hp & Hq & Hf & -> & -> & Hcs).
  destruct (fetch_loop_pages _ _ _ _ _ _ _ _ _ _ _ Hf) as [Hl' Hlast].
  destruct (fetch_loop_status _ _ _ _ _ _ _ _ _ _ _ Hf)
    as (Hstuck & Hfin & Hfuel & _ & _).
  destruct (fetch_loop_request _ _ _ _ _ _ _ _ _ _ _ Hf) as [_ Hrq].
  exists r0, (length (requests w)),
    ((λ x, mkCall (length (requests w)) x.1 x.2) <$> cs), rs.
  split_and!; try done.
  - by rewrite fetched_calls, Hl'.
  - by rewrite store_after_calls, Hcs.
  - intros i call Hcall. rewrite list_lookup_fmap in Hcall.
    destruct (cs !! i) as [x|] eqn:Hx; [|done]. simplify_eq/=.
    destruct (fetch_loop_threading _ _ _ _ _ _ _ _ _ _ _ Hf i x Hx)
      as (prev & Hprev & Hne & Hreq & Hres).
    exists prev. split_and!; try done.
    destruct (x.2) as [e|r]; [|done].
    destruct Hres as [-> <-]. done.
  - by eapply store_after_pager.
  - rewrite fmap_last. erewrite store_after_request; [|done].
    destruct (last cs) as [x|]; simpl; by subst.
  - intros Hst. simpl. f_equal. by apply Hfuel.
Qed.

(** ** More fuel changes nothing once a traversal has ended *)

Lemma pages_drain_mono n k g w l st w1 :
  pages_drain n g w = (l, st, w1) → st ≠ OutOfFuel → n ≤ k →
  pages_drain k g w = (l, st, w1).
Proof.
  revert k g w l. induction n as [|n IH]; intros k g w l Hd Hst Hk.
  - simpl in Hd. by simplify_eq.
  - destruct k as [|k]; [lia|]. cbn [pages_drain] in *.
    destruct (pages_next g w) as [[[[r| |e] g'] w']|]; try done.
    destruct (pages_drain n g' w') as [[l' st'] w''] eqn:Hn.
    simplify_eq. by rewrite (IH k g' w' l' Hn Hst ltac:(lia)).
Qed.

Lemma iter_drain_mono n k (g : IterGen) w (l : list Item) st w1 :
  iter_drain n g w = (l, st, w1) → st ≠ OutOfFuel → n ≤ k →
  iter_drain k g w = (l, st, w1).
Proof.
  revert k g w l. induction n as [|n IH]; intros k g w l Hd Hst Hk.
  - simpl in Hd. by simplify_eq.
  - destruct k as [|k]; [lia|]. cbn [iter_drain] in *.
    destruct (iter_step g w) as [[[[x| | |e] g'] w']|]; try done.
    + destruct (iter_drain n g' w') as [[l' st'] w''] eqn:Hn.
      simplify_eq. by rewrite (IH k g' w' l' Hn Hst ltac:(lia)).
    + apply IH; [done..|lia].
Qed.

(** ** [__iter__] over [pages] *)

Lemma iter_drain_buffer (buf : list Item) k p pg w :
  iter_drain (length buf + k) (mkIterGen p (ItRunning pg buf)) w
  = let '(l, st, w') := iter_drain k (mkIterGen p (ItRunning pg [])) w in
    (buf ++ l, st, w').
Proof.
  induction buf as [|x buf IH].
  - simpl. by destruct (iter_drain k _ w) as [[l st] w'].
  - cbn [length Nat.add iter_drain iter_step it_pc it_self].
    rewrite IH. by destruct (iter_drain k _ w) as [[l st] w'].
Qed.

Lemma iter_drain_running n p pg w l st w1 :
  pages_drain n pg w = (l, st, w1) →
  iter_drain (n + length (concat (items <$> l)))
    (mkIterGen p (ItRunning pg [])) w
  = (concat (items <$> l), st, w1).
Proof.
  revert pg w l. induction n as [|n IH]; intros pg w l Hd.
  - simpl in Hd. by simplify_eq.
  - cbn [pages_drain] in Hd.
    cbn [Nat.add iter_drain iter_step it_pc it_self].
    destruct (pages_next pg w) as [[[[r| |e] g'] w']|]; simpl;
      [|by simplify_eq..].
    destruct (pages_drain n g' w') as [[l' st'] w''] eqn:Hn. simplify_eq.
    cbn [fmap list_fmap concat]. rewrite length_app.
    replace (n + (length (items r) + length (concat (items <$> l'))))
      with (length (items r) + (n + length (concat (items <$> l')))) by lia.
    rewrite iter_drain_buffer. by rewrite (IH _ _ _ Hn).
Qed.

Lemma iter_drain_created p w n l st w1 :
  pages_drain n (pages p) w = (l, st, w1) →
  iter_drain (S (n + length (concat (items <$> l)))) (__iter__ p) w
  = (concat (items <$> l), st, w1).
Proof.
  intros Hd. cbn [iter_drain iter_step __iter__ it_pc it_self].
  by apply iter_drain_running.
Qed.

Lemma iter_drain_prefix k p pg (buf : list Item) w :
  ∃ n l st li sti w1,
    pages_drain n pg w = (l, st, w1) ∧
    iter_drain k (mkIterGen p (ItRunning pg buf)) w = (li, sti, w1) ∧
    li `prefix_of` buf ++ concat (items <$> l).
Proof.
  revert pg buf w. induction k as [|k IH]; intros pg buf w.
  { exists 0. eexists _, _, _, _, _. split_and!; [done..|]. apply prefix_nil. }
  destruct buf as [|x buf].
  - cbn [iter_drain iter_step it_pc it_self].
    destruct (pages_next pg w) as [[[[r| |e] pg'] w']|] eqn:Hn; simpl.
    + destruct (IH pg' (items r) w')
        as (n & l & st & li & sti & w1 & Hd & Hi & Hpre).
      exists (S n). eexists _, _, _, _, _. cbn [pages_drain].
      rewrite Hn, Hd. by split_and!.
    + exists 1. eexists _, _, _, _, _. cbn [pages_drain]. rewrite Hn.
      by split_and!.
    + exists 1. eexists _, _, _, _, _. cbn [pages_drain]. rewrite Hn.
      by split_and!.
    + exists 0. eexists _, _, _, _, _. by split_and!.
  - cbn [iter_drain iter_step it_pc it_self].
    destruct (IH pg buf w) as (n & l & st & li & sti & w1 & Hd & Hi & Hpre).
    exists n. eexists _, _, _, _, _. rewrite Hi.
    split_and!; [done..|]. simpl. by apply prefix_cons.
Qed.

(** C2. Iterating a pager yields the items of the pages of [pages],
    page after page and in each page's order, and leaves the store as
    the traversal of the pages leaves it: the same calls of the
    invoker, no others.  [n] bounds the pages asked for; when the
    traversal of the pages ends by itself, so does the iteration,
    whatever fuel it is given beyond what it needs.  Stopped at any
    moment, the iteration has yielded a prefix of the items of some
    pages of [pages] and made the calls of the traversal of those
    pages. *)
Theorem iter_flattens_pages p w :
  (∀ n l st w1, pages_drain n (pages p) w = (l, st, w1) →
     iter_drain (S (n + length (concat (items <$> l)))) (__iter__ p) w
     = (concat (items <$> l), st, w1) ∧
     (st ≠ OutOfFuel →
      ∀ k, S (n + length (concat (items <$> l))) ≤ k →
        iter_drain k (__iter__ p) w = (concat (items <$> l), st, w1))) ∧
  (∀ k, ∃ n l st li sti w1,
     pages_drain n (pages p) w = (l, st, w1) ∧
     iter_drain k (__iter__ p) w = (li, sti, w1) ∧
     li `prefix_of` concat (items <$> l)).
Proof.
  split.
  - intros n l st w1 Hd.
    pose proof (iter_drain_created _ _ _ _ _ _ Hd) as Hi.
    split; [done|]. intros Hst k Hk. by eapply iter_drain_mono.
  - intros [|k].
    { exists 0. eexists _, _, _, _, _. split_and!; [done..|]. apply prefix_nil. }
    cbn [iter_drain iter_step __iter__ it_pc it_self].
    apply (iter_drain_prefix k p (pages p) [] w).
Qed.

(** C3. A pager built on a response with an empty [next_page_token]
    and N items: iterating it yields those N items, in order, and
    ends, and the store is then as it was after construction; the
    invoker has not been called. *)
Theorem single_page_no_call c m a resp w p w0 :
  __init__ c m a resp w = Some (p, w0) →
  next_page_token resp = ""%string →
  ∀ k, length (items resp) + 3 ≤ k →
    iter_drain k (__iter__ p) w0 = (items resp, Finished, w0) ∧
    calls w0 = calls w ∧ mstate w0 = mstate w.
Proof.
  intros Hi Htok k Hk.
  destruct (init_inv _ _ _ _ _ _ _ Hi)
    as (r0 & Ha & -> & Hp & Hq & _ & _ & Hms & Hcs).
  split; [|done].
  assert (pages_drain 2 (pages (length (pagers w))) w0
          = ([resp], Finished, w0)) as Hd.
  { rewrite (pages_drain_created _ _ _ _ _ _ _ _ Hp Hq).
    cbn [fetch_loop]. rewrite Htok. cbn [truthy].
    by rewrite (store_after_id _ _ _ _ _ _ _ Hp Hq). }
  pose proof (iter_drain_created _ _ _ _ _ _ Hd) as Hit.
  rewrite (iter_drain_mono _ k _ _ _ _ _ Hit).
  - simpl. by rewrite app_nil_r.
  - done.
  - simpl. rewrite app_nil_r. lia.
Qed.

(** ** Attribute lookup *)

Lemma lookup_forwarded w p pg name :
  pagers w !! p = Some pg →
  name ∉ own_names →
  Pager_getattr p name w
  = Some (Forwarded (response_getattr (pager_class pg) (_response pg) name)).
Proof.
  intros Hp Hname. unfold Pager_lookup, __getattr__.
  rewrite bool_decide_eq_false_2 by done. by rewrite Hp.
Qed.

(** C4. A name that is not on the pager's own surface is looked up on
    the response the pager retains at that moment.  On a new pager
    that is the response given to the constructor.  After a traversal
    of [pages], the pages yielded are that response and then the
    pages fetched, and the pager retains the page yielded last: the
    lookup answers with the field of that page, the one fetched last
    (of the response given to the constructor while none was
    fetched), never of an earlier one. *)
Theorem getattr_follows_retained c m a resp w p w0 name :
  __init__ c m a resp w = Some (p, w0) →
  name ∉ own_names →
  (∀ w' pg, pagers w' !! p = Some pg →
     Pager_getattr p name w'
     = Some (Forwarded
               (response_getattr (pager_class pg) (_response pg) name))) ∧
  Pager_getattr p name w0 = Some (Forwarded (response_getattr c resp name)) ∧
  ∀ n l st w1, pages_drain n (pages p) w0 = (l, st, w1) →
    ∃ cs, calls w1 = calls w ++ cs ∧
      (0 < n → l = resp :: fetched cs) ∧
      retained p w1 = Some (default resp (last l)) ∧
      Pager_getattr p name w1
      = Some (Forwarded (response_getattr c (default resp (last l)) name)) ∧
      Pager_getattr p name w1
      = Some (Forwarded
                (response_getattr c (default resp (last (fetched cs))) name)).
Proof.
  intros Hi Hname. split; [by intros; apply lookup_forwarded|].
  destruct (init_inv _ _ _ _ _ _ _ Hi)
    as (r0 & Ha & Hpeq & Hp & Hq & _ & _ & Hms & Hcs).
  split; [by rewrite (lookup_forwarded _ _ _ _ Hp Hname)|].
  intros [|n] l st w1 Hd.
  - simpl in Hd. injection Hd as <- <- <-. exists []. rewrite app_nil_r.
    split; [done|]. split; [lia|].
    split; [by unfold retained; rewrite Hp|].
    by rewrite (lookup_forwarded _ _ _ _ Hp Hname).
  - destruct (fresh_traversal _ _ _ _ _ _ _ _ _ _ _ Hi Hd)
      as (r0' & rq & rs & ms & cs & l' & _ & _ & _ & Hf & -> & -> & _).
    destruct (fetch_loop_pages _ _ _ _ _ _ _ _ _ _ _ Hf) as [Hl' Hlast].
    pose proof (store_after_pager _ _ _ _ _ _ rq rs ms cs Hp) as Hp1.
    exists ((λ x, mkCall (length (requests w)) x.1 x.2) <$> cs).
    rewrite fetched_calls, <- Hl', Hlast.
    split; [by rewrite store_after_calls, Hcs|].
    split; [done|].
    split; [by unfold retained; rewrite Hp1|].
    rewrite (lookup_forwarded _ _ _ _ Hp1 Hname).
    split; [done|].
    rewrite last_cons in Hlast. by destruct (last l'); simplify_eq/=.
Qed.

(** ** Errors *)


(** ** The pager's request is a copy *)

Lemma store_after_caller_assign w p c m q fin a (r' : Request) :
  a ≠ q →
  store_after p c m q fin (caller_assign a r' w)
  = caller_assign a r' (store_after p c m q fin w).
Proof.
  intros Hne. destruct fin as [[[rq rs] ms] cs].
  unfold store_after, caller_assign, set_requests; simpl.
  by rewrite list_insert_insert_ne.
Qed.

Lemma pages_drain_caller_assign k pc w p c m q req resp a (r' : Request) :
  pagers w !! p = Some (mkPager c m q resp) →
  requests w !! q = Some req →
  a ≠ q →
  pages_drain k (mkPagesGen p pc) (caller_assign a r' w)
  = let '(l, st, w1) := pages_drain k (mkPagesGen p pc) w in
    (l, st, caller_assign a r' w1).
Proof.
  intros Hp Hq Hne.
  assert (requests (caller_assign a r' w) !! q = Some req) as Hq'.
  { simpl. by rewrite list_lookup_insert_ne. }
  assert (pagers (caller_assign a r' w) !! p = Some (mkPager c m q resp))
    as Hp' by done.
  destruct pc.
  - destruct k as [|k]; [done|]. change (mkPagesGen p PcCreated) with (pages p).
    rewrite (pages_drain_created _ _ _ _ _ _ _ _ Hp' Hq').
    rewrite (pages_drain_created _ _ _ _ _ _ _ _ Hp Hq).
    change (mstate (caller_assign a r' w)) with (mstate w).
    destruct (fetch_loop k m req resp (mstate w)) as [[l st] fin].
    by rewrite store_after_caller_assign.
  - rewrite (pages_drain_suspended _ _ _ _ _ _ _ _ Hp' Hq').
    rewrite (pages_drain_suspended _ _ _ _ _ _ _ _ Hp Hq).
    change (mstate (caller_assign a r' w)) with (mstate w).
    destruct (fetch_loop k m req resp (mstate w)) as [[l st] fin].
    by rewrite store_after_caller_assign.
  - by destruct k.
Qed.

Lemma traversal_store c m a resp w p w0 n l st w1 :
  __init__ c m a resp w = Some (p, w0) →
  pages_drain n (pages p) w0 = (l, st, w1) →
  ∃ (r0 rq : Request) rs ms (cs : list (Request * (Err + Response))),
    requests w !! a = Some r0 ∧
    pagers w0 !! p = Some (mkPager c m (length (requests w)) resp) ∧
    requests w0 !! length (requests w) = Some r0 ∧
    query rq = query r0 ∧
    w1 = store_after p c m (length (requests w)) (rq, rs, ms, cs) w0.
Proof.
  intros Hi Hd. destruct n as [|n].
  - destruct (init_inv _ _ _ _ _ _ _ Hi)
      as (r0 & Ha & -> & Hp & Hq & _ & _ & Hms & Hcs).
    simpl in Hd. injection Hd as <- <- <-.
    exists r0, r0, resp, (mstate w0), []. split_and!; try done.
    by rewrite (store_after_id _ _ _ _ _ _ _ Hp Hq).
  - destruct (fresh_traversal _ _ _ _ _ _ _ _ _ _ _ Hi Hd)
      as (r0 & rq & rs & ms & cs & l' & Ha & Hp & Hq & Hf & -> & -> & Hcs).
    destruct (fetch_loop_request _ _ _ _ _ _ _ _ _ _ _ Hf) as [Hquery _].
    by exists r0, rq, rs, ms, cs.
Qed.

(** C6. The constructor gives the pager a request object of its own,
    with the fields of the caller's.  A traversal of [pages] passes
    that object and no other to the invoker, leaves every other
    request object, the caller's among them, as it was, and changes
    the pager's own only in [page_token].  An assignment by the caller
    to its request, made at any moment after construction, changes
    neither the pages nor the outcome nor the calls of whatever
    traversal follows. *)
Theorem request_copy_isolated c m a resp w p w0 :
  __init__ c m a resp w = Some (p, w0) →
  ∃ (r0 : Request) (q : loc),
    requests w !! a = Some r0 ∧
    q ≠ a ∧
    pagers w0 !! p = Some (mkPager c m q resp) ∧
    requests w0 !! q = Some r0 ∧
    requests w0 !! a = Some r0 ∧
    ∀ n l st w1, pages_drain n (pages p) w0 = (l, st, w1) →
      (∀ b, b ≠ q → requests w1 !! b = requests w0 !! b) ∧
      (∃ rq, requests w1 !! q = Some rq ∧ query rq = query r0) ∧
      (∃ cs, calls w1 = calls w ++ cs ∧
         Forall (λ call, call_arg call = q) cs) ∧
      ∀ (r' : Request) k pc,
        pages_drain k (mkPagesGen p pc) (caller_assign a r' w1)
        = let '(l', st', w2) := pages_drain k (mkPagesGen p pc) w1 in
          (l', st', caller_assign a r' w2).
Proof.
  intros Hi.
  destruct (init_inv _ _ _ _ _ _ _ Hi)
    as (r0 & Ha & Hpeq & Hp & Hq & Hrs & _ & Hms & Hcs).
  assert (length (requests w) ≠ a) as Hne.
  { apply lookup_lt_Some in Ha. lia. }
  exists r0, (length (requests w)). split_and!; try done.
  { rewrite Hrs. by apply lookup_app_l_Some. }
  intros n l st w1 Hd.
  destruct (traversal_store _ _ _ _ _ _ _ _ _ _ _ Hi Hd)
    as (r0' & rq & rs & ms & cs & Ha' & _ & _ & Hquery & ->).
  assert (r0' = r0) as -> by congruence.
  split_and!.
  - intros b Hb. by apply store_after_other_request.
  - exists rq. split; [by eapply store_after_request|done].
  - exists ((λ x, mkCall (length (requests w)) x.1 x.2) <$> cs).
    split; [by rewrite store_after_calls, Hcs|].
    apply Forall_fmap, Forall_true. done.
  - intros r' k pc. eapply pages_drain_caller_assign; [| |done].
    + by eapply store_after_pager.
    + by eapply store_after_request.
Qed.

(** ** Two pagers on one invoker *)

Lemma fetch_loop_pure n (f : Request → Err + Response) req resp
    (ms ms' : MState) :
  (fetch_loop n (pure_method f) req resp ms).1
  = (fetch_loop n (pure_method f) req resp ms').1.
Proof.
  revert req resp. induction n as [|n IH]; intros req resp; [done|].
  cbn [fetch_loop]. destruct (truthy (next_page_token resp)); [|done].
  unfold pure_method at 1 3.
  destruct (f _) as [e|r]; [done|].
  specialize (IH (set_page_token (next_page_token resp) req) r).
  destruct (fetch_loop n _ _ r ms) as [[l st] [[[rq rs] ms1] cs]].
  destruct (fetch_loop n _ _ r ms') as [[l' st'] [[[rq' rs'] ms1'] cs']].
  simpl in *. by simplify_eq.
Qed.

(** C7. With an invoker that is a function of the request, two new
    pagers built on that invoker, on requests with the same fields
    and on the same response yield the same pages and end in the same
    way when each is traversed once with the same bound, whatever
    else the stores they are built in hold. *)
Theorem fresh_pagers_same_pages (f : Request → Err + Response)
    c c' a a' (r0 : Request) resp w w' p p' w0 w0' n l st w1 l' st' w1' :
  requests w !! a = Some r0 →
  requests w' !! a' = Some r0 →
  __init__ c (pure_method f) a resp w = Some (p, w0) →
  __init__ c' (pure_method f) a' resp w' = Some (p', w0') →
  pages_drain n (pages p) w0 = (l, st, w1) →
  pages_drain n (pages p') w0' = (l', st', w1') →
  l = l' ∧ st = st'.
Proof.
  intros Ha Ha' Hi Hi' Hd Hd'. destruct n as [|n].
  { simpl in *. by simplify_eq. }
  destruct (fresh_traversal _ _ _ _ _ _ _ _ _ _ _ Hi Hd)
    as (r1 & rq & rs & ms & cs & l1 & Hr1 & _ & _ & Hf & -> & _ & _).
  destruct (fresh_traversal _ _ _ _ _ _ _ _ _ _ _ Hi' Hd')
    as (r2 & rq' & rs' & ms' & cs' & l2 & Hr2 & _ & _ & Hf' & -> & _ & _).
  assert (r1 = r0) as -> by congruence.
  assert (r2 = r0) as -> by congruence.
  pose proof (fetch_loop_pure n f r0 resp (mstate w) (mstate w')) as Heq.
  rewrite Hf, Hf' in Heq. simpl in Heq. by simplify_eq.
Qed.

(** ** Termination *)

Lemma fetch_loop_finish n m req resp ms l rq rs ms' cs :
  fetch_loop n m req resp ms = (l, OutOfFuel, (rq, rs, ms', cs)) →
  next_page_token rs = ""%string →
  fetch_loop (S n) m req resp ms = (l, Finished, (rq, rs, ms', cs)).
Proof.
  revert req resp ms l cs. induction n as [|n IH]; intros req resp ms l cs Hf Htok.
  - simpl in Hf. simplify_eq. cbn [fetch_loop]. by rewrite Htok.
  - apply fetch_loop_cases in Hf
      as [(?&?&?&?&?&?&?)|[(n'&?&?&?&?&?&?&?&?)|[(n'&e&?&?&?&?&?&?&?&?)
         |(n'&r&ms1&l1&cs1&?&Hne&Hm&Hl&?&?)]]];
      simplify_eq.
    apply truthy_nonempty in Hne.
    specialize (IH _ _ _ _ _ Hl Htok).
    remember (S n') as k. cbn [fetch_loop]. rewrite Hne, Hm. by rewrite IH.
Qed.

Lemma fetch_loop_endless n m req resp ms :
  (∀ req' ms', ∃ r ms'', m req' ms' = (inr r, ms'') ∧
     next_page_token r ≠ ""%string) →
  next_page_token resp ≠ ""%string →
  ∃ l fin, fetch_loop n m req resp ms = (l, OutOfFuel, fin) ∧ length l = n.
Proof.
  intros Hm. revert req resp ms.
  induction n as [|n IH]; intros req resp ms Hne; [by eexists _, _|].
  cbn [fetch_loop]. apply truthy_nonempty in Hne as Ht. rewrite Ht.
  destruct (Hm (set_page_token (next_page_token resp) req) ms)
    as (r & ms1 & -> & Hr).
  destruct (IH (set_page_token (next_page_token resp) req) r ms1 Hr)
    as (l & [[[rq rs] ms2] cs] & -> & Hlen).
  eexists _, _. split; [done|]. simpl. by rewrite Hlen.
Qed.

(** C8. A traversal of the [pages] of a new pager ends by itself only
    on a page with an empty [next_page_token], and does end as soon as
    the page yielded last has one: more fuel then adds nothing, and
    the iteration of the items ends too.  Nothing else bounds it: when
    the response given to the constructor and every response of the
    invoker carry a non-empty token, every bound [n] is used up, by
    [n] pages for [pages] and without an end for the items. *)
Theorem pages_end_on_empty_token c m a resp w p w0 :
  __init__ c m a resp w = Some (p, w0) →
  (∀ n l st w1, pages_drain n (pages p) w0 = (l, st, w1) →
     (st = Finished → ∃ r, last l = Some r ∧ next_page_token r = ""%string) ∧
     (∀ r, last l = Some r → next_page_token r = ""%string →
        (∀ k, n < k → pages_drain k (pages p) w0 = (l, Finished, w1)) ∧
        ∃ N, ∀ k, N ≤ k →
          iter_drain k (__iter__ p) w0 = (concat (items <$> l), Finished, w1))) ∧
  (next_page_token resp ≠ ""%string →
   (∀ req ms, ∃ r ms', m req ms = (inr r, ms') ∧
      next_page_token r ≠ ""%string) →
   ∀ n,
     (∃ l w1, pages_drain n (pages p) w0 = (l, OutOfFuel, w1) ∧ length l = n) ∧
     (∃ l w1, iter_drain n (__iter__ p) w0 = (l, OutOfFuel, w1))).
Proof.
  intros Hi. split.
  - intros n l st w1 Hd. split.
    + intros ->. destruct n as [|n]; [by simpl in Hd|].
      destruct (fresh_traversal _ _ _ _ _ _ _ _ _ _ _ Hi Hd)
        as (r0 & rq & rs & ms & cs & l' & _ & _ & _ & Hf & -> & _ & _).
      destruct (fetch_loop_pages _ _ _ _ _ _ _ _ _ _ _ Hf) as [_ Hlast].
      destruct (fetch_loop_status _ _ _ _ _ _ _ _ _ _ _ Hf) as (_ & Hfin & _).
      exists rs. split; [done|]. by apply Hfin.
    + intros r Hlast Htok.
      assert (pages_drain (S n) (pages p) w0 = (l, Finished, w1)) as Hfin.
      { destruct n as [|n]; [by simpl in Hd; simplify_eq|].
        destruct (fresh_traversal _ _ _ _ _ _ _ _ _ _ _ Hi Hd)
          as (r0 & rq & rs & ms & cs & l' & Ha & Hp & Hq & Hf & -> & -> & _).
        destruct (fetch_loop_pages _ _ _ _ _ _ _ _ _ _ _ Hf) as [_ Hlast'].
        assert (rs = r) as -> by congruence.
        destruct (fetch_loop_status _ _ _ _ _ _ _ _ _ _ _ Hf)
          as (Hstuck & _ & _ & Hraise & _).
        destruct (init_inv _ _ _ _ _ _ _ Hi) as (_&_&_&_&_&_&_&Hms&_).
        destruct st as [|e| |]; [| | |done].
        * by eapply pages_drain_mono; [done|done|lia].
        * destruct (Hraise e eq_refl) as (_ & _ & _ & Hne). done.
        * rewrite (pages_drain_created _ _ _ _ _ _ _ _ Hp Hq), Hms.
          by rewrite (fetch_loop_finish _ _ _ _ _ _ _ _ _ _ Hf Htok). }
      split.
      * intros k Hk. by eapply pages_drain_mono; [done|done|lia].
      * pose proof (iter_drain_created _ _ _ _ _ _ Hfin) as Hit.
        eexists. intros k Hk. by eapply iter_drain_mono.
  - intros Hne Hm n.
    assert (∃ l w1, pages_drain n (pages p) w0 = (l, OutOfFuel, w1)
                    ∧ length l = n) as Hpages.
    { destruct n as [|n]; [by eexists _, _|].
      destruct (init_inv _ _ _ _ _ _ _ Hi)
        as (r0 & Ha & Hpeq & Hp & Hq & _ & _ & Hms & Hcs).
      destruct (fetch_loop_endless n m r0 resp (mstate w0) Hm Hne)
        as (l & fin & Hf & Hlen).
      rewrite (pages_drain_created _ _ _ _ _ _ _ _ Hp Hq), Hf.
      eexists _, _. split; [done|]. simpl. by rewrite Hlen. }
    split; [done|].
    destruct Hpages as (l & w1 & Hd & Hlen).
    pose proof (iter_drain_created _ _ _ _ _ _ Hd) as Hit.
    destruct (iter_drain n (__iter__ p) w0) as [[li sti] wi] eqn:Hn.
    assert (sti = OutOfFuel ∨ sti ≠ OutOfFuel) as [->|Hst]
      by (destruct sti; auto).
    { by eexists _, _. }
    rewrite (iter_drain_mono _ _ _ _ _ _ _ Hn Hst) in Hit by lia.
    by simplify_eq.
Qed.

(** ** A second traversal of the same pager *)

Lemma fetch_loop_split n1 n2 m req resp ms l1 rq1 rs1 ms1 cs1 :
  fetch_loop n1 m req resp ms = (l1, OutOfFuel, (rq1, rs1, ms1, cs1)) →
  fetch_loop (n1 + n2) m req resp ms
  = let '(l2, st, (rq2, rs2, ms2, cs2)) := fetch_loop n2 m rq1 rs1 ms1 in
    (l1 ++ l2, st, (rq2, rs2, ms2, cs1 ++ cs2)).
Proof.
  revert req resp ms l1 cs1.
  induction n1 as [|n1 IH]; intros req resp ms l1 cs1 Hf.
  - simpl in Hf. simplify_eq. simpl.
    by destruct (fetch_loop n2 m rq1 rs1 ms1) as [[l2 st] [[[rq2 rs2] ms2] cs2]].
  - apply fetch_loop_cases in Hf
      as [(?&?&?&?&?&?&?)|[(n'&?&?&?&?&?&?&?&?)|[(n'&e&?&?&?&?&?&?&?&?)
         |(n'&r&ms'&l'&cs'&?&Hne&Hm&Hl&?&?)]]];
      simplify_eq.
    apply truthy_nonempty in Hne.
    cbn [Nat.add fetch_loop]. rewrite Hne, Hm, (IH _ _ _ _ _ Hl).
    by destruct (fetch_loop n2 m rq1 rs1 ms1) as [[l2 st] [[[rq2 rs2] ms2] cs2]].
Qed.

(** C9, as amended.  A new [pages] generator starts at the response
    the pager retains when it is first resumed.  After a first
    generator of a new pager has yielded its pages, be it stopped
    after [k] of them or run to its end, that response is the page
    yielded last (the one given to the constructor when none was
    yielded): a second generator of the same pager yields it again.
    When the first was stopped after [k >= 1] pages, the second then
    goes on as the first would have, on the same request and
    response: what the two have yielded, the repeated page counted
    once, is what one traversal yields. *)
Theorem second_traversal_resumes c m a resp w p w0 k l1 st1 w1 n l2 st2 w2 :
  __init__ c m a resp w = Some (p, w0) →
  pages_drain k (pages p) w0 = (l1, st1, w1) →
  pages_drain (S n) (pages p) w1 = (l2, st2, w2) →
  retained p w1 = Some (default resp (last l1)) ∧
  head l2 = retained p w1 ∧
  (st1 = OutOfFuel →
   length l1 = k ∧
   (0 < k → pages_drain (k + n) (pages p) w0 = (l1 ++ tail l2, st2, w2))).
Proof.
  intros Hi Hd1 Hd2. destruct k as [|k].
  - simpl in Hd1. injection Hd1 as <- <- <-.
    destruct (init_inv _ _ _ _ _ _ _ Hi)
      as (r0 & Ha & Hpeq & Hp & Hq & _ & _ & Hms & Hcs).
    rewrite (pages_drain_created _ _ _ _ _ _ _ _ Hp Hq) in Hd2.
    destruct (fetch_loop n m r0 resp (mstate w0)) as [[l st] fin].
    simplify_eq. unfold retained. rewrite Hp. split_and!; try done.
    intros _. split; [done|lia].
  - destruct (fresh_traversal _ _ _ _ _ _ _ _ _ _ _ Hi Hd1)
      as (r0 & rq & rs & ms & cs & l' & Ha & Hp & Hq & Hf & -> & -> & Hcs).
    destruct (fetch_loop_pages _ _ _ _ _ _ _ _ _ _ _ Hf) as [_ Hlast].
    destruct (fetch_loop_status _ _ _ _ _ _ _ _ _ _ _ Hf)
      as (_ & _ & Hfuel & _ & _).
    destruct (init_inv _ _ _ _ _ _ _ Hi) as (_&_&_&_&_&_&_&Hms&_).
    pose proof (store_after_pager _ _ _ _ _ _ rq rs ms cs Hp) as Hp1.
    pose proof (store_after_request _ p c m _ _ rq rs ms cs Hq) as Hq1.
    rewrite (pages_drain_created _ _ _ _ _ _ _ _ Hp1 Hq1) in Hd2.
    rewrite store_after_mstate in Hd2.
    destruct (fetch_loop n m rq rs ms) as [[l2' st] [[[rq2 rs2] ms2] cs2]] eqn:Hf2.
    injection Hd2 as <- <- <-.
    split; [by unfold retained; rewrite Hp1, Hlast|].
    split; [by unfold retained; rewrite Hp1|].
    intros ->. destruct (Hfuel eq_refl) as [Hlen _].
    split; [by simpl; rewrite Hlen|].
    intros _. change (S k + n) with (S (k + n)).
    rewrite (pages_drain_created _ _ _ _ _ _ _ _ Hp Hq), Hms.
    rewrite (fetch_loop_split _ n _ _ _ _ _ _ _ _ _ Hf), Hf2.
    cbn [tail].
    by rewrite <- (store_after_twice _ _ _ _ _ rq rs ms cs rq2 rs2 ms2 cs2).
Qed.

End PagerTheory.

(** * Part IV: the gRPC transport, theorems *)

Section TransportTheory.
Import Grpc.
Context {Credentials Channel Stub Client Ext : Type}.

Abbreviation Cred := (@CredArg Credentials).
Abbreviation TransportObj := (@Transport Credentials Channel Stub Client).
Abbreviation Outside := (@TWorld Credentials Channel Stub Client Ext).
Abbreviation Created := (@Creation Credentials Channel Stub Client).

Variable base_init : string → Cred → Ext → (string * Cred) * Ext.
Variable new_channel : string → Cred → Ext → Channel * Ext.
Variable new_stub : Channel → StubSpec → Ext → Stub * Ext.
Variable new_client : Channel → Ext → Client * Ext.

Implicit Types (t : TransportObj) (w : Outside) (a b : Access).

Local Abbreviation read := (access new_channel new_stub new_client).
Local Abbreviation reads := (accesses new_channel new_stub new_client).

(** ** Counting creations *)

Lemma channels_created_snoc w (e : Ext) (cr : Created) :
  channels_created (mkTWorld e (created w ++ [cr]))
  = channels_created w + (if is_channel_creation cr then 1 else 0).
Proof.
  unfold channels_created; simpl. rewrite List.filter_app, length_app.
  simpl. by destruct (is_channel_creation cr).
Qed.

Lemma stubs_created_snoc w (e : Ext) pth (cr : Created) :
  stubs_created pth (mkTWorld e (created w ++ [cr]))
  = stubs_created pth w + (if is_stub_creation pth cr then 1 else 0).
Proof.
  unfold stubs_created; simpl. rewrite List.filter_app, length_app.
  simpl. by destruct (is_stub_creation pth cr).
Qed.

Lemma clients_created_snoc w (e : Ext) (cr : Created) :
  clients_created (mkTWorld e (created w ++ [cr]))
  = clients_created w + (if is_client_creation cr then 1 else 0).
Proof.
  unfold clients_created; simpl. rewrite List.filter_app, length_app.
  simpl. by destruct (is_client_creation cr).
Qed.

Lemma stub_of_inj a b na spa nb spb :
  stub_of a = Some (na, spa) → stub_of b = Some (nb, spb) →
  na = nb ∨ path spa = path spb → a = b.
Proof.
  intros Ha Hb Hsame.
  assert (String.eqb na nb || String.eqb (path spa) (path spb) = true) as H.
  { destruct Hsame as [->| ->]; rewrite String.eqb_refl;
      [done|by rewrite orb_true_r]. }
  destruct a, b; simplify_eq/=; try done; vm_compute in H; done.
Qed.

Lemma conserved_refl t w : conserved t w t w.
Proof. by split_and!. Qed.

Lemma conserved_trans t1 w1 t2 w2 t3 w3 :
  conserved t1 w1 t2 w2 → conserved t2 w2 t3 w3 → conserved t1 w1 t3 w3.
Proof.
  intros (Hc & Hk & Hs) (Hc' & Hk' & Hs'). split_and!; [lia..|].
  intros b name sp Hb. rewrite (Hs' b name sp Hb). by apply (Hs b).
Qed.

(** ** The channel *)

Lemma grpc_channel_spec t w ch t' w' :
  grpc_channel new_channel t w = (ch, t', w') →
  _grpc_channel t' = Some ch ∧
  _stubs t' = _stubs t ∧
  dict_operations_client t' = dict_operations_client t ∧
  (∀ ch0, _grpc_channel t = Some ch0 → ch = ch0 ∧ t' = t ∧ w' = w) ∧
  conserved t w t' w'.
Proof.
  unfold grpc_channel, create_channel, conserved, channel_budget.
  destruct (_grpc_channel t) as [ch0|] eqn:Hch.
  - intros [= <- <- <-]. rewrite Hch. split_and!; try done.
    by intros ? [= <-].
  - destruct (new_channel _ _ _) as [ch1 e]. intros [= <- <- <-]. simpl.
    split_and!; try done.
    + rewrite channels_created_snoc. simpl. lia.
    + rewrite clients_created_snoc. simpl.
      change (client_budget (set_grpc_channel ch1 t)) with (client_budget t).
      lia.
    + intros b name sp Hb. rewrite stubs_created_snoc. simpl.
      change (stub_budget name (set_grpc_channel ch1 t))
        with (stub_budget name t). lia.
Qed.

(** ** The operations client *)

Lemma operations_client_spec t w cl t' w' :
  operations_client new_channel new_client t w = (cl, t', w') →
  dict_operations_client t' = Some cl ∧
  _stubs t' = _stubs t ∧
  (∀ ch, _grpc_channel t = Some ch → _grpc_channel t' = Some ch) ∧
  (∀ cl0, dict_operations_client t = Some cl0 → cl = cl0 ∧ t' = t ∧ w' = w) ∧
  conserved t w t' w'.
Proof.
  unfold operations_client.
  destruct (dict_operations_client t) as [cl0|] eqn:Hcl.
  - intros [= <- <- <-]. rewrite Hcl.
    split_and!; try done; try apply conserved_refl.
    all: by intros ? [= <-].
  - destruct (grpc_channel new_channel t w) as [[ch t1] w1] eqn:Hc.
    destruct (grpc_channel_spec _ _ _ _ _ Hc)
      as (Hch & Hst & Hops & Hsame & Hcons).
    destruct (new_client ch (ext w1)) as [cl1 e]. intros [= <- <- <-].
    simpl. split_and!; try done.
    + intros ch0 Hch0. by destruct (Hsame ch0 Hch0) as (-> & -> & ->).
    + eapply conserved_trans; [exact Hcons|].
      unfold conserved, client_budget. rewrite Hops, Hcl. simpl.
      split_and!.
      * rewrite channels_created_snoc. simpl.
        change (channel_budget (set_operations_client cl1 t1))
          with (channel_budget t1). lia.
      * rewrite clients_created_snoc. simpl. lia.
      * intros b name sp Hb. rewrite stubs_created_snoc. simpl.
        change (stub_budget name (set_operations_client cl1 t1))
          with (stub_budget name t1). lia.
Qed.

(** ** A stub property *)

Lemma stub_property_spec a name sp t w s t' w' :
  stub_of a = Some (name, sp) →
  stub_property new_channel new_stub name sp t w = (s, t', w') →
  _stubs t' !! name = Some s ∧
  (∀ name', name' ≠ name → _stubs t' !! name' = _stubs t !! name') ∧
  (∀ ch, _grpc_channel t = Some ch → _grpc_channel t' = Some ch) ∧
  dict_operations_client t' = dict_operations_client t ∧
  (∀ s0, _stubs t !! name = Some s0 → s = s0 ∧ t' = t ∧ w' = w) ∧
  conserved t w t' w'.
Proof.
  intros Ha. unfold stub_property.
  destruct (_stubs t !! name) as [s0|] eqn:Hs.
  - intros [= <- <- <-]. rewrite Hs.
    split_and!; try done; try apply conserved_refl.
    all: by intros ? [= <-].
  - destruct (grpc_channel new_channel t w) as [[ch t1] w1] eqn:Hc.
    destruct (grpc_channel_spec _ _ _ _ _ Hc)
      as (Hch & Hst & Hops & Hsame & Hcons).
    destruct (new_stub ch sp (ext w1)) as [s1 e]. intros [= <- <- <-].
    simpl. rewrite lookup_insert_eq. split_and!; try done.
    + intros name' Hne. by rewrite lookup_insert_ne, Hst.
    + intros ch0 Hch0. by destruct (Hsame ch0 Hch0) as (-> & -> & ->).
    + eapply conserved_trans; [exact Hcons|].
      unfold conserved. split_and!.
      * rewrite channels_created_snoc. simpl.
        change (channel_budget (set_stubs _ t1)) with (channel_budget t1). lia.
      * rewrite clients_created_snoc. simpl.
        change (client_budget (set_stubs _ t1)) with (client_budget t1). lia.
      * intros b nb spb Hb. rewrite stubs_created_snoc.
        unfold stub_budget. simpl.
        destruct (decide (nb = name)) as [->|Hne].
        -- assert (b = a) as -> by (eapply stub_of_inj; eauto).
           simplify_eq. rewrite lookup_insert_eq, String.eqb_refl.
           rewrite Hst, Hs. lia.
        -- rewrite lookup_insert_ne by done.
           destruct (String.eqb_spec (path sp) (path spb)) as [Hp|Hp]; [|lia].
           destruct Hne.
           assert (b = a) as -> by (eapply stub_of_inj; eauto).
           by simplify_eq.
Qed.

Lemma read_stub a name sp t w :
  stub_of a = Some (name, sp) →
  read a t w = as_stub (stub_property new_channel new_stub name sp t w).
Proof. destruct a; intros; by simplify_eq/=. Qed.

(** ** Any property *)

Lemma read_spec a t w o t' w' :
  read a t w = (o, t', w') →
  cached a t' = Some o ∧
  (∀ b o', cached b t = Some o' → cached b t' = Some o') ∧
  (∀ o0, cached a t = Some o0 → o = o0 ∧ t' = t ∧ w' = w) ∧
  conserved t w t' w'.
Proof.
  intros Hr. destruct (stub_of a) as [[name sp]|] eqn:Ha.
  - rewrite (read_stub _ _ _ _ _ Ha) in Hr. unfold as_stub in Hr.
    destruct (stub_property _ _ name sp t w) as [[s t1] w1] eqn:Hs.
    injection Hr as <- <- <-.
    destruct (stub_property_spec _ _ _ _ _ _ _ _ Ha Hs)
      as (Hnew & Hothers & Hch & Hops & Hsame & Hcons).
    unfold cached. rewrite Ha, Hnew. split_and!; try done.
    + intros b o'. destruct (stub_of b) as [[nb spb]|] eqn:Hb.
      * destruct (decide (nb = name)) as [->|Hne].
        -- destruct (_stubs t !! name) as [s0|] eqn:Hs0; [|done].
           destruct (Hsame s0 eq_refl) as (-> & -> & ->). by rewrite Hs0.
        -- by rewrite Hothers.
      * destruct b; try done.
        -- destruct (_grpc_channel t) as [ch|] eqn:Hc; [|done].
           by rewrite (Hch ch eq_refl).
        -- by rewrite Hops.
    + intros o0 Ho0. destruct (_stubs t !! name) as [s0|] eqn:Hs0; [|done].
      destruct (Hsame s0 eq_refl) as (-> & -> & ->). by simplify_eq/=.
  - destruct a; try done; simpl in Hr.
    + destruct (grpc_channel new_channel t w) as [[ch t1] w1] eqn:Hc.
      injection Hr as <- <- <-.
      destruct (grpc_channel_spec _ _ _ _ _ Hc)
        as (Hch & Hst & Hops & Hsame & Hcons).
      unfold cached. simpl. rewrite Hch. split_and!; try done.
      * intros b o'.
        destruct (stub_of b) as [[nb spb]|] eqn:Hb; [by rewrite Hst|].
        destruct b; try done.
        -- destruct (_grpc_channel t) as [ch0|] eqn:Hc0; [|done].
           by destruct (Hsame ch0 eq_refl) as (-> & -> & ->).
        -- by rewrite Hops.
      * intros o0 Ho0. destruct (_grpc_channel t) as [ch0|] eqn:Hc0; [|done].
        destruct (Hsame ch0 eq_refl) as (-> & -> & ->). by simplify_eq/=.
    + destruct (operations_client new_channel new_client t w)
        as [[cl t1] w1] eqn:Hc.
      injection Hr as <- <- <-.
      destruct (operations_client_spec _ _ _ _ _ Hc)
        as (Hcl & Hst & Hch & Hsame & Hcons).
      unfold cached. simpl. rewrite Hcl. split_and!; try done.
      * intros b o'.
        destruct (stub_of b) as [[nb spb]|] eqn:Hb; [by rewrite Hst|].
        destruct b; try done.
        -- destruct (_grpc_channel t) as [ch0|] eqn:Hc0; [|done].
           by rewrite (Hch ch0 eq_refl).
        -- destruct (dict_operations_client t) as [cl0|] eqn:Hc0; [|done].
           by destruct (Hsame cl0 eq_refl) as (-> & -> & ->).
      * intros o0 Ho0.
        destruct (dict_operations_client t) as [cl0|] eqn:Hc0; [|done].
        destruct (Hsame cl0 eq_refl) as (-> & -> & ->). by simplify_eq/=.
Qed.

(** ** Sequences of reads *)

Lemma reads_spec l t w os t' w' :
  reads l t w = (os, t', w') →
  (∀ b o', cached b t = Some o' →
     cached b t' = Some o' ∧ ∀ i, l !! i = Some b → os !! i = Some o') ∧
  conserved t w t' w'.
Proof.
  revert t w os. induction l as [|a l IH]; intros t w os Hr.
  - simpl in Hr. simplify_eq. split; [done|apply conserved_refl].
  - cbn [accesses] in Hr.
    destruct (read a t w) as [[o t1] w1] eqn:Ha.
    destruct (reads l t1 w1) as [[os' t2] w2] eqn:Hl.
    injection Hr as <- <- <-.
    destruct (read_spec _ _ _ _ _ _ Ha) as (Hnew & Hkeep & Hsame & Hcons).
    destruct (IH _ _ _ Hl) as (Hkeep' & Hcons').
    split; [|by eapply conserved_trans].
    intros b o' Hb. destruct (Hkeep' b o' (Hkeep b o' Hb)) as [Hb' Hall].
    split; [done|]. intros [|i] Hi; simplify_eq/=.
    + destruct (Hsame o' Hb) as (-> & _). done.
    + by apply Hall.
Qed.

Lemma reads_same l t w os t' w' :
  reads l t w = (os, t', w') →
  ∀ i j a o o', l !! i = Some a → l !! j = Some a →
    os !! i = Some o → os !! j = Some o' → o = o'.
Proof.
  revert t w os. induction l as [|a0 l IH]; intros t w os Hr; [done|].
  cbn [accesses] in Hr.
  destruct (read a0 t w) as [[o0 t1] w1] eqn:Ha.
  destruct (reads l t1 w1) as [[os' t2] w2] eqn:Hl.
  injection Hr as <- <- <-.
  destruct (read_spec _ _ _ _ _ _ Ha) as (Hnew & _).
  destruct (reads_spec _ _ _ _ _ _ Hl) as (Hkeep & _).
  destruct (Hkeep a0 o0 Hnew) as [_ Hall].
  intros [|i] [|j] a o o' Hi Hj Ho Ho'; simplify_eq/=.
  - done.
  - rewrite (Hall j Hj) in Ho'. by simplify_eq.
  - rewrite (Hall i Hi) in Ho. by simplify_eq.
  - by eapply (IH _ _ _ Hl i j).
Qed.

Lemma init_spec host cred channel w t w0 :
  Grpc.__init__ base_init host cred channel w = (t, w0) →
  _grpc_channel t = channel ∧
  _stubs t = ∅ ∧
  dict_operations_client t = None ∧
  created w0 = created w ∧
  ∀ cred', channel ≠ None →
    Grpc.__init__ base_init host cred' channel w = (t, w0).
Proof.
  unfold Grpc.__init__. destruct channel as [ch|].
  - destruct (base_init host CFalse (ext w)) as [[h c] e].
    intros [= <- <-]. by split_and!.
  - destruct (base_init host cred (ext w)) as [[h c] e].
    intros [= <- <-]. by split_and!.
Qed.

Lemma cached_held a t o :
  cached a t = Some o →
  match o with
  | OChannel ch => a = GrpcChannel ∧ _grpc_channel t = Some ch
  | OStub s => ∃ name sp, stub_of a = Some (name, sp) ∧ _stubs t !! name = Some s
  | OClient cl =>
      a = OperationsClientProperty ∧ dict_operations_client t = Some cl
  end.
Proof.
  unfold cached. destruct (stub_of a) as [[name sp]|] eqn:Ha.
  - destruct (_stubs t !! name) as [s|] eqn:Hs; intros; simplify_eq/=.
    by exists name, sp.
  - destruct a; try done; simpl.
    + destruct (_grpc_channel t); intros; by simplify_eq/=.
    + destruct (dict_operations_client t); intros; by simplify_eq/=.
Qed.

Lemma read_sets_channel a t w o t' w' :
  read a t w = (o, t', w') →
  cached a t = None →
  is_Some (_grpc_channel t').
Proof.
  intros Hr Hnone. destruct (stub_of a) as [[name sp]|] eqn:Ha.
  - rewrite (read_stub _ _ _ _ _ Ha) in Hr. unfold as_stub, stub_property in Hr.
    unfold cached in Hnone. rewrite Ha in Hnone.
    destruct (_stubs t !! name) as [s0|]; [done|].
    destruct (grpc_channel new_channel t w) as [[ch t1] w1] eqn:Hc.
    destruct (grpc_channel_spec _ _ _ _ _ Hc) as (Hch & _).
    destruct (new_stub ch sp (ext w1)) as [s e].
    injection Hr as <- <- <-. simpl. by eexists.
  - destruct a; try done; simpl in Hr.
    + destruct (grpc_channel new_channel t w) as [[ch t1] w1] eqn:Hc.
      destruct (grpc_channel_spec _ _ _ _ _ Hc) as (Hch & _).
      injection Hr as <- <- <-. by eexists.
    + unfold operations_client in Hr. unfold cached in Hnone. simpl in Hnone.
      destruct (dict_operations_client t) as [cl0|]; [done|].
      destruct (grpc_channel new_channel t w) as [[ch t1] w1] eqn:Hc.
      destruct (grpc_channel_spec _ _ _ _ _ Hc) as (Hch & _).
      destruct (new_client ch (ext w1)) as [cl e].
      injection Hr as <- <- <-. simpl. by eexists.
Qed.

(** C10. On a transport, a read of [grpc_channel] or of a stub
    property (or of [operations_client]) leaves the object it returns
    held by the transport, in [_grpc_channel] or under the property's
    key of [_stubs]; a second read returns that object and changes
    nothing, neither in the transport nor outside it.  Over any
    sequence of readings after construction every object returned is
    held at the end, the same property always gives the same object,
    at most one channel is created and at most one stub for each
    method: exactly one stub for each stub property read, and exactly
    one channel when none was given and something was read.  When a
    channel is given to the constructor, the transport is the same
    whatever [credentials] is given with it, [grpc_channel] is that
    channel, and no channel is created. *)
Theorem transport_properties_cached host cred channel w t w0 :
  Grpc.__init__ base_init host cred channel w = (t, w0) →
  (∀ a t1 w1 o t2 w2,
     read a t1 w1 = (o, t2, w2) →
     match o with
     | OChannel ch => a = GrpcChannel ∧ _grpc_channel t2 = Some ch
     | OStub s =>
         ∃ name sp, stub_of a = Some (name, sp) ∧ _stubs t2 !! name = Some s
     | OClient cl =>
         a = OperationsClientProperty ∧ dict_operations_client t2 = Some cl
     end ∧
     read a t2 w2 = (o, t2, w2)) ∧
  (∀ l os t1 w1, reads l t w0 = (os, t1, w1) →
     (∀ i a, l !! i = Some a →
        ∃ o, os !! i = Some o ∧
          match o with
          | OChannel ch => a = GrpcChannel ∧ _grpc_channel t1 = Some ch
          | OStub s =>
              ∃ name sp, stub_of a = Some (name, sp) ∧
                _stubs t1 !! name = Some s
          | OClient cl =>
              a = OperationsClientProperty ∧
              dict_operations_client t1 = Some cl
          end) ∧
     (∀ i j a o o', l !! i = Some a → l !! j = Some a →
        os !! i = Some o → os !! j = Some o' → o = o') ∧
     channels_created w1 ≤ channels_created w + 1 ∧
     clients_created w1 ≤ clients_created w + 1 ∧
     (∀ a name sp, stub_of a = Some (name, sp) →
        stubs_created (path sp) w1 ≤ stubs_created (path sp) w + 1) ∧
     (∀ i a name sp, l !! i = Some a → stub_of a = Some (name, sp) →
        stubs_created (path sp) w1 = stubs_created (path sp) w + 1) ∧
     (channel = None → l ≠ [] →
        is_Some (_grpc_channel t1) ∧
        channels_created w1 = channels_created w + 1)) ∧
  (∀ ch, channel = Some ch →
     (∀ cred', Grpc.__init__ base_init host cred' (Some ch) w = (t, w0)) ∧
     ∀ l os t1 w1, reads l t w0 = (os, t1, w1) →
       _grpc_channel t1 = Some ch ∧
       (∀ i, l !! i = Some GrpcChannel → os !! i = Some (OChannel ch)) ∧
       channels_created w1 = channels_created w).
Proof.
  intros Hi.
  destruct (init_spec _ _ _ _ _ _ Hi) as (Hch & Hst & Hops & Hcr & Hany).
  assert (channels_created w0 = channels_created w) as Hcc
    by (unfold channels_created; by rewrite Hcr).
  split_and!.
  - intros a t1 w1 o t2 w2 Hr.
    destruct (read_spec _ _ _ _ _ _ Hr) as (Hnew & _).
    split; [by apply cached_held|].
    destruct (read a t2 w2) as [[o' t3] w3] eqn:Hr'.
    destruct (read_spec _ _ _ _ _ _ Hr') as (_ & _ & Hsame & _).
    by destruct (Hsame o Hnew) as (-> & -> & ->).
  - intros l os t1 w1 Hr.
    destruct (reads_spec _ _ _ _ _ _ Hr)
      as (Hkeep & Hcount & Hclient & Hstubs).
    assert (∀ i a, l !! i = Some a →
              ∃ o, os !! i = Some o ∧ cached a t1 = Some o) as Hheld.
    { clear -Hr. revert t w0 os Hr.
      induction l as [|a0 l IH]; intros t w os Hr i a Hia; [done|].
      cbn [accesses] in Hr.
      destruct (read a0 t w) as [[o0 t2] w2] eqn:Ha.
      destruct (reads l t2 w2) as [[os' t3] w3] eqn:Hl.
      injection Hr as <- <- <-.
      destruct i as [|i]; simplify_eq/=.
      - exists o0. split; [done|].
        destruct (read_spec _ _ _ _ _ _ Ha) as (Hnew & _).
        destruct (reads_spec _ _ _ _ _ _ Hl) as (Hkeep & _).
        by destruct (Hkeep a o0 Hnew).
      - by eapply IH. }
    split_and!.
    + intros i a Hia. destruct (Hheld i a Hia) as (o & Ho & Hc).
      exists o. split; [done|]. by apply cached_held.
    + by eapply reads_same.
    + assert (channel_budget t ≤ 1)
        by (unfold channel_budget; destruct (_grpc_channel t); lia).
      lia.
    + assert (client_budget t ≤ 1)
        by (unfold client_budget; destruct (dict_operations_client t); lia).
      assert (clients_created w0 = clients_created w)
        by (unfold clients_created; by rewrite Hcr).
      lia.
    + intros a name sp Ha. specialize (Hstubs a name sp Ha).
      assert (stub_budget name t ≤ 1)
        by (unfold stub_budget; destruct (_stubs t !! name); lia).
      assert (stubs_created (path sp) w0 = stubs_created (path sp) w)
        by (unfold stubs_created; by rewrite Hcr).
      lia.
    + intros i a name sp Hia Ha. specialize (Hstubs a name sp Ha).
      destruct (Hheld i a Hia) as (o & _ & Hc).
      unfold cached in Hc. rewrite Ha in Hc.
      unfold stub_budget in Hstubs. rewrite Hst, lookup_empty in Hstubs.
      destruct (_stubs t1 !! name) as [s|]; [|done].
      assert (stubs_created (path sp) w0 = stubs_created (path sp) w)
        by (unfold stubs_created; by rewrite Hcr).
      lia.
    + intros Hnone Hl. destruct l as [|a0 l]; [done|].
      cbn [accesses] in Hr.
      destruct (read a0 t w0) as [[o0 t2] w2] eqn:Ha.
      destruct (reads l t2 w2) as [[os' t3] w3] eqn:Hrest.
      injection Hr as <- <- <-.
      assert (cached a0 t = None) as Hfresh.
      { unfold cached. rewrite Hst, Hops, Hch, Hnone.
        destruct (stub_of a0) as [[name sp]|]; [by rewrite lookup_empty|].
        by destruct a0. }
      destruct (read_sets_channel _ _ _ _ _ _ Ha Hfresh) as [ch Hch2].
      destruct (reads_spec _ _ _ _ _ _ Hrest) as (Hkeep' & _).
      destruct (Hkeep' GrpcChannel (OChannel ch)) as [Hc3 _].
      { unfold cached; simpl. by rewrite Hch2. }
      unfold cached in Hc3; simpl in Hc3.
      destruct (_grpc_channel t3) as [ch3|] eqn:Hch3; [|done].
      split; [by eexists|].
      unfold channel_budget in Hcount. rewrite Hch3, Hch, Hnone in Hcount.
      lia.
  - intros ch ->. split; [by intros cred'; apply Hany|].
    intros l os t1 w1 Hr.
    destruct (reads_spec _ _ _ _ _ _ Hr) as (Hkeep & Hcount & _).
    destruct (Hkeep GrpcChannel (OChannel ch)) as [Hc1 Hall].
    { unfold cached; simpl. by rewrite Hch. }
    unfold cached in Hc1; simpl in Hc1.
    destruct (_grpc_channel t1) as [ch1|] eqn:Hch1; simplify_eq/=.
    split_and!; try done.
    unfold channel_budget in Hcount. rewrite Hch, Hch1 in Hcount. lia.
Qed.

End TransportTheory.

(** * Part V: the theorems at work on concrete stores *)

Section Witnesses.
Import Pager Examples.

Lemma pages_token_threading_witness :
  __init__ ListEndpointsPager invoker 0 page1 world0
  = Some (0, built invoker page1) ∧
  pages_drain 3 (pages 0) (built invoker page1)
  = ([page1; page2], Finished, world2) ∧
  ∃ (r0 : @ListRequest string) (q : loc) (cs : list Call) rs,
    requests world0 !! 0 = Some r0 ∧
    [page1; page2] = page1 :: fetched cs ∧
    calls world2 = calls world0 ++ cs ∧
    (∀ i call, cs !! i = Some call →
       ∃ prev, [page1; page2] !! i = Some prev ∧
         next_page_token prev ≠ ""%string ∧
         call_arg call = q ∧
         call_request call = set_page_token (next_page_token prev) r0 ∧
         match call_result call with
         | inr r => [page1; page2] !! S i = Some r
         | inl e => Finished = Raised e ∧ length [page1; page2] = S i
         end) ∧
    last [page1; page2] = Some rs ∧
    pagers world2 !! 0 = Some (mkPager ListEndpointsPager invoker q rs) ∧
    match last cs with
    | Some call => requests world2 !! q = Some (call_request call)
    | None => requests world2 !! q = Some r0
    end ∧
    (@Finished string = Finished → next_page_token rs = ""%string) ∧
    (@Finished string = OutOfFuel → length [page1; page2] = 3) ∧
    @Finished string ≠ Stuck.
Proof.
  split; [reflexivity|]. split; [reflexivity|].
  apply (pages_token_threading ListEndpointsPager invoker 0 page1 world0
           0 (built invoker page1) 2 [page1; page2] Finished world2);
    reflexivity.
Defined.

Lemma iter_flattens_pages_witness :
  pages_drain 3 (pages 0) (built invoker page1)
  = ([page1; page2], Finished, world2) ∧
  iter_drain 7 (__iter__ 0) (built invoker page1)
  = ([1; 2; 3], Finished, world2) ∧
  (@Finished string ≠ OutOfFuel →
   ∀ k, 7 ≤ k →
     iter_drain k (__iter__ 0) (built invoker page1)
     = ([1; 2; 3], Finished, world2)).
Proof.
  split; [reflexivity|].
  apply (proj1 (iter_flattens_pages 0 (built invoker page1)) 3
           [page1; page2] Finished world2).
  reflexivity.
Defined.

Lemma single_page_no_call_witness :
  __init__ ListEndpointsPager failing 0 page2 world0
  = Some (0, built failing page2) ∧
  next_page_token page2 = ""%string ∧
  ∀ k, length (items page2) + 3 ≤ k →
    iter_drain k (__iter__ 0) (built failing page2)
    = (items page2, Finished, built failing page2) ∧
    calls (built failing page2) = calls world0 ∧
    mstate (built failing page2) = mstate world0.
Proof.
  split; [reflexivity|]. split; [reflexivity|].
  apply (single_page_no_call ListEndpointsPager failing 0 page2 world0 0
           (built failing page2)); reflexivity.
Defined.

Lemma getattr_follows_retained_witness :
  __init__ ListEndpointsPager invoker 0 page1 world0
  = Some (0, built invoker page1) ∧
  ("next_page_token"%string ∉ own_surface object_names) ∧
  pages_drain 3 (pages 0) (built invoker page1)
  = ([page1; page2], Finished, world2) ∧
  Pager_lookup object_names 0 "next_page_token" (built invoker page1)
  = Some (Forwarded (Some (AToken (next_page_token page1)))) ∧
  Pager_lookup object_names 0 "next_page_token" world2
  = Some (Forwarded (Some (AToken (next_page_token page2)))) ∧
  ∃ cs, calls world2 = calls world0 ++ cs ∧
    (0 < 3 → [page1; page2] = page1 :: fetched cs) ∧
    retained 0 world2 = Some (default page1 (last [page1; page2])) ∧
    Pager_lookup object_names 0 "next_page_token" world2
    = Some (Forwarded
              (response_getattr ListEndpointsPager
                 (default page1 (last [page1; page2])) "next_page_token")) ∧
    Pager_lookup object_names 0 "next_page_token" world2
    = Some (Forwarded
              (response_getattr ListEndpointsPager
                 (default page1 (last (fetched cs))) "next_page_token")).
Proof.
  assert ("next_page_token"%string ∉ own_surface object_names) as Hname.
  { refine (bool_decide_unpack _ _); vm_compute; exact I. }
  pose proof (getattr_follows_retained object_names ListEndpointsPager
                invoker 0 page1 world0 0 (built invoker page1)
                "next_page_token" eq_refl Hname) as (_ & Hnew & Hafter).
  split; [reflexivity|]. split; [exact Hname|]. split; [reflexivity|].
  split; [exact Hnew|].
  destruct (Hafter 3 [page1; page2] Finished world2 eq_refl)
    as (cs & Hcs & Hl & Hret & Hlast & Hfetched).
  split; [exact Hlast|]. exists cs. repeat split; assumption.
Defined.


Lemma request_copy_isolated_witness :
  __init__ ListEndpointsPager invoker 0 page1 world0
  = Some (0, built invoker page1) ∧
  ∃ (r0 : @ListRequest string) (q : loc),
    requests world0 !! 0 = Some r0 ∧
    q ≠ 0 ∧
    pagers (built invoker page1) !! 0
    = Some (mkPager ListEndpointsPager invoker q page1) ∧
    requests (built invoker page1) !! q = Some r0 ∧
    requests (built invoker page1) !! 0 = Some r0 ∧
    ∀ n l st w1,
      pages_drain n (pages 0) (built invoker page1) = (l, st, w1) →
      (∀ b, b ≠ q →
         requests w1 !! b = requests (built invoker page1) !! b) ∧
      (∃ rq, requests w1 !! q = Some rq ∧ query rq = query r0) ∧
      (∃ cs, calls w1 = calls world0 ++ cs ∧
         Forall (λ call, call_arg call = q) cs) ∧
      ∀ (r' : @ListRequest string) k pc,
        pages_drain k (mkPagesGen 0 pc) (caller_assign 0 r' w1)
        = let '(l', st', w2) := pages_drain k (mkPagesGen 0 pc) w1 in
          (l', st', caller_assign 0 r' w2).
Proof.
  split; [reflexivity|].
  apply (request_copy_isolated ListEndpointsPager invoker 0 page1 world0
           0 (built invoker page1)).
  reflexivity.
Defined.

Lemma fresh_pagers_same_pages_witness :
  ∃ wc wd,
    requests world0 !! 0 = Some request0 ∧
    requests world_pure !! 0 = Some request0 ∧
    __init__ ListEndpointsPager (pure_method lookup_page) 0 page1 world0
    = Some (0, built (pure_method lookup_page) page1) ∧
    __init__ ListEndpointsPager (pure_method lookup_page) 0 page1 world_pure
    = Some (1, wc) ∧
    pages_drain 3 (pages 0) (built (pure_method lookup_page) page1)
    = ([page1; page2], Finished, world_pure) ∧
    pages_drain 3 (pages 1) wc = ([page1; page2], Finished, wd) ∧
    [page1; page2] = [page1; page2] ∧ @Finished string = Finished.
Proof.
  eexists _, _.
  split; [reflexivity|]. split; [reflexivity|].
  split; [reflexivity|]. split; [reflexivity|].
  split; [reflexivity|]. split; [reflexivity|].
  eapply (fresh_pagers_same_pages lookup_page ListEndpointsPager
            ListEndpointsPager 0 0 request0 page1 world0 world_pure 0 1
            (built (pure_method lookup_page) page1) _ 3 _ _ world_pure);
    reflexivity.
Defined.

Lemma pages_end_on_empty_token_witness :
  __init__ ListEndpointsPager endless 0 page1 world0
  = Some (0, built endless page1) ∧
  next_page_token page1 ≠ ""%string ∧
  (∀ req ms, ∃ r ms', endless req ms = (inr r, ms') ∧
     next_page_token r ≠ ""%string) ∧
  (∀ n,
     (∃ l w1, pages_drain n (pages 0) (built endless page1)
              = (l, OutOfFuel, w1) ∧ length l = n) ∧
     (∃ l w1, iter_drain n (__iter__ 0) (built endless page1)
              = (l, OutOfFuel, w1))) ∧
  __init__ ListEndpointsPager invoker 0 page1 world0
  = Some (0, built invoker page1) ∧
  pages_drain 2 (pages 0) (built invoker page1)
  = ([page1; page2], OutOfFuel, world2) ∧
  last [page1; page2] = Some page2 ∧
  next_page_token page2 = ""%string ∧
  (∀ k, 2 < k →
     pages_drain k (pages 0) (built invoker page1)
     = ([page1; page2], Finished, world2)) ∧
  ∃ N, ∀ k, N ≤ k →
    iter_drain k (__iter__ 0) (built invoker page1)
    = (concat (items <$> [page1; page2]), Finished, world2).
Proof.
  assert (∀ req ms, ∃ r ms', endless req ms = (inr r, ms') ∧
            next_page_token r ≠ ""%string) as Hendless.
  { intros req ms. eexists _, _. split; [reflexivity|]. discriminate. }
  split; [reflexivity|]. split; [discriminate|]. split; [exact Hendless|].
  split.
  { apply (pages_end_on_empty_token ListEndpointsPager endless 0 page1 world0
             0 (built endless page1) eq_refl);
      [discriminate|exact Hendless]. }
  split; [reflexivity|]. split; [reflexivity|].
  split; [reflexivity|]. split; [reflexivity|].
  apply (pages_end_on_empty_token ListEndpointsPager invoker 0 page1 world0
           0 (built invoker page1) eq_refl) with (n := 2) (st := OutOfFuel)
           (r := page2); reflexivity.
Defined.

Lemma second_traversal_resumes_witness :
  ∃ w1 w2,
    __init__ ListEndpointsPager chain 0 pageA world0
    = Some (0, built chain pageA) ∧
    pages_drain 2 (pages 0) (built chain pageA)
    = ([pageA; pageB], OutOfFuel, w1) ∧
    pages_drain 3 (pages 0) w1 = ([pageB; pageC], Finished, w2) ∧
    retained 0 w1 = Some (default pageA (last [pageA; pageB])) ∧
    head [pageB; pageC] = retained 0 w1 ∧
    (@OutOfFuel string = OutOfFuel →
     length [pageA; pageB] = 2 ∧
     (0 < 2 →
      pages_drain (2 + 2) (pages 0) (built chain pageA)
      = ([pageA; pageB] ++ tail [pageB; pageC], Finished, w2))).
Proof.
  eexists _, _.
  split; [reflexivity|]. split; [reflexivity|]. split; [reflexivity|].
  eapply (second_traversal_resumes ListEndpointsPager chain 0 pageA world0
            0 (built chain pageA) 2 [pageA; pageB] OutOfFuel _ 2
            [pageB; pageC] Finished _); reflexivity.
Defined.

(** C9, as it was stated, fails on three chained pages: after two
    pages have been taken, a second generator of the same pager
    starts at the second response, which is not the third. *)
Lemma second_traversal_counterexample :
  ∃ w1 l2 st2 w2 full stf wf,
    __init__ ListEndpointsPager chain 0 pageA world0
    = Some (0, built chain pageA) ∧
    pages_drain 2 (pages 0) (built chain pageA)
    = ([pageA; pageB], OutOfFuel, w1) ∧
    pages_drain 4 (pages 0) w1 = (l2, st2, w2) ∧
    pages_drain 4 (pages 0) (built chain pageA) = (full, stf, wf) ∧
    stf = Finished ∧
    head l2 = Some pageB ∧
    full !! 2 = Some pageC ∧
    head l2 ≠ full !! 2.
Proof.
  eexists _, _, _, _, _, _, _.
  split; [reflexivity|]. split; [reflexivity|]. split; [reflexivity|].
  split; [reflexivity|]. split; [reflexivity|]. split; [reflexivity|].
  split; [reflexivity|]. discriminate.
Qed.

Lemma transport_properties_cached_witness :
  (Grpc.__init__ base_init "aiplatform.googleapis.com"
     (Grpc.CObj "key"%string) None tworld0 = (transport_fresh, tworld0) ∧
   Grpc.accesses new_channel new_stub new_client
     [Grpc.ListEndpoints; Grpc.GrpcChannel; Grpc.ListEndpoints]
     transport_fresh tworld0
   = ([Grpc.OStub 101; Grpc.OChannel 100; Grpc.OStub 101],
      transport_read, tworld_read) ∧
   Grpc._grpc_channel transport_read = Some 100 ∧
   Grpc._stubs transport_read !! "list_endpoints"%string = Some 101 ∧
   (∀ i a,
      [Grpc.ListEndpoints; Grpc.GrpcChannel; Grpc.ListEndpoints] !! i
      = Some a →
      ∃ o, [Grpc.OStub 101; Grpc.OChannel 100; Grpc.OStub 101] !! i = Some o ∧
        match o with
        | Grpc.OChannel ch =>
            a = Grpc.GrpcChannel ∧ Grpc._grpc_channel transport_read = Some ch
        | Grpc.OStub s =>
            ∃ name sp, Grpc.stub_of a = Some (name, sp) ∧
              Grpc._stubs transport_read !! name = Some s
        | Grpc.OClient cl =>
            a = Grpc.OperationsClientProperty ∧
            Grpc.dict_operations_client transport_read = Some cl
        end) ∧
   (∀ i a name sp,
      [Grpc.ListEndpoints; Grpc.GrpcChannel; Grpc.ListEndpoints] !! i
      = Some a →
      Grpc.stub_of a = Some (name, sp) →
      Grpc.stubs_created (Grpc.path sp) tworld_read
      = Grpc.stubs_created (Grpc.path sp) tworld0 + 1) ∧
   is_Some (Grpc._grpc_channel transport_read) ∧
   Grpc.channels_created tworld_read = Grpc.channels_created tworld0 + 1 ∧
   Grpc.access new_channel new_stub new_client Grpc.ListEndpoints
     transport_read tworld_read
   = (Grpc.OStub 101, transport_read, tworld_read)) ∧
  (Grpc.__init__ base_init "aiplatform.googleapis.com"
     (Grpc.CObj "key"%string) (Some 7) tworld0 = (transport_given, tworld0) ∧
   Grpc.accesses new_channel new_stub new_client
     [Grpc.GrpcChannel; Grpc.ListEndpoints] transport_given tworld0
   = ([Grpc.OChannel 7; Grpc.OStub 100],
      Grpc.set_stubs (<["list_endpoints"%string := 100]> ∅) transport_given,
      Grpc.mkTWorld 101
        [Grpc.StubCreated 7 Grpc.list_endpoints_stub 100]) ∧
   ∀ ch, Some 7 = Some ch →
     (∀ cred',
        Grpc.__init__ base_init "aiplatform.googleapis.com" cred' (Some ch)
          tworld0 = (transport_given, tworld0)) ∧
     ∀ l os t1 w1,
       Grpc.accesses new_channel new_stub new_client l transport_given
         tworld0 = (os, t1, w1) →
       Grpc._grpc_channel t1 = Some ch ∧
       (∀ i, l !! i = Some Grpc.GrpcChannel →
          os !! i = Some (Grpc.OChannel ch)) ∧
       Grpc.channels_created w1 = Grpc.channels_created tworld0).
Proof.
  split.
  - pose proof (transport_properties_cached base_init new_channel new_stub
                  new_client "aiplatform.googleapis.com"
                  (Grpc.CObj "key"%string) None tworld0 transport_fresh
                  tworld0 eq_refl) as (Hone & Hmany & _).
    destruct (Hmany [Grpc.ListEndpoints; Grpc.GrpcChannel; Grpc.ListEndpoints]
                [Grpc.OStub 101; Grpc.OChannel 100; Grpc.OStub 101]
                transport_read tworld_read eq_refl)
      as (Hheld & _ & _ & _ & _ & Hstubs & Hchan).
    destruct (Hchan eq_refl ltac:(discriminate)) as [Hsome Hcount].
    destruct (Hone Grpc.ListEndpoints transport_fresh tworld0 (Grpc.OStub 101)
                transport_read tworld_read eq_refl) as [_ Hagain].
    split_and!;
      first [exact Hheld|exact Hstubs|exact Hsome|exact Hcount|exact Hagain
            |reflexivity].
  - split; [reflexivity|]. split; [reflexivity|].
    apply (transport_properties_cached base_init new_channel new_stub
             new_client "aiplatform.googleapis.com" (Grpc.CObj "key"%string)
             (Some 7) tworld0 transport_given tworld0 eq_refl).
Defined.

End Witnesses.

(** * Part VI: more on the pagers *)

Section PagerMore.
Import Pager.
Context {Item Query Err MState : Type}.

Abbreviation Request' := (@ListRequest Query).
Abbreviation Response' := (@ListResponse Item).
Abbreviation Store' := (@World Item Query Err MState).
Abbreviation Invoker' := (@Method Item Query Err MState).

Implicit Types (w : Store') (m : Invoker') (req rq : Request')
  (resp : Response') (p q a : loc) (c : PagerClass).

(** ** Laziness *)

Lemma iter_drain_take k p pg (buf : list Item) w :
  k ≤ length buf →
  iter_drain k (mkIterGen p (ItRunning pg buf)) w = (take k buf, OutOfFuel, w).
Proof.
  revert buf. induction k as [|k IH]; intros buf Hk; [done|].
  destruct buf as [|x buf]; [simpl in Hk; lia|].
  cbn [iter_drain iter_step it_pc it_self]. rewrite IH by (simpl in Hk; lia).
  done.
Qed.

(** X1. Iterating a new pager hands out the items of the response
    given to the constructor before the invoker is called at all:
    stopped after [k] of them, the iteration has yielded the first
    [k] and the store is as the constructor left it. *)
Theorem first_page_before_any_call c m a resp w p w0 k :
  __init__ c m a resp w = Some (p, w0) →
  k ≤ length (items resp) →
  iter_drain (2 + k) (__iter__ p) w0 = (take k (items resp), OutOfFuel, w0) ∧
  calls w0 = calls w ∧ mstate w0 = mstate w.
Proof.
  intros Hi Hk.
  destruct (init_inv _ _ _ _ _ _ _ Hi)
    as (r0 & Ha & -> & Hp & Hq & _ & _ & Hms & Hcs).
  split; [|done].
  cbn [Nat.add iter_drain iter_step __iter__ it_pc it_self].
  rewrite (pages_next_created _ _ _ Hp). simpl.
  by apply iter_drain_take.
Qed.

(** ** A traversal that ends by itself *)

Lemma fetch_loop_finished n m req resp ms l rq rs ms' cs :
  fetch_loop n m req resp ms = (l, Finished, (rq, rs, ms', cs)) →
  length cs = length l ∧
  Forall (λ x, is_Some (result_page x)) cs ∧
  ∀ i r, (resp :: l) !! i = Some r →
    (next_page_token r = ""%string ↔ i = length l).
Proof.
  revert req resp ms l cs. induction n as [|n IH]; intros req resp ms l cs Hf;
    apply fetch_loop_cases in Hf
      as [(?&?&?&?&?&?&?)|[(n'&?&?&?&?&?&?&?&?)|[(n'&e&?&?&?&?&?&?&?&?)
         |(n'&r&ms1&l1&cs1&?&Hne&Hm&Hl&?&?)]]];
    simplify_eq.
  - split_and!; [done..|]. intros [|i] r Hr; simplify_eq/=. by split.
  - destruct (IH _ _ _ _ _ Hl) as (Hlen & Hall & Htok).
    split_and!.
    + simpl. by rewrite Hlen.
    + constructor; [by eexists|done].
    + intros [|i] r' Hr'; simplify_eq/=.
      * split; [done|lia].
      * rewrite (Htok i r' Hr'). lia.
Qed.

(** X2. When a traversal of the [pages] of a new pager ends by
    itself, the invoker has been called once for each page but the
    first, every call has returned a page, and among the pages
    yielded the last one, and no other, has an empty
    [next_page_token]. *)
Theorem finished_traversal_calls c m a resp w p w0 n l w1 :
  __init__ c m a resp w = Some (p, w0) →
  pages_drain n (pages p) w0 = (l, Finished, w1) →
  ∃ cs, calls w1 = calls w ++ cs ∧
    S (length cs) = length l ∧
    Forall (λ call, ∃ r, call_result call = inr r) cs ∧
    ∀ i r, l !! i = Some r →
      (next_page_token r = ""%string ↔ S i = length l).
Proof.
  intros Hi Hd. destruct n as [|n]; [by simpl in Hd|].
  destruct (fresh_traversal _ _ _ _ _ _ _ _ _ _ _ Hi Hd)
    as (r0 & rq & rs & ms & cs & l' & Ha & Hp & Hq & Hf & -> & -> & Hcs).
  destruct (fetch_loop_finished _ _ _ _ _ _ _ _ _ _ Hf) as (Hlen & Hall & Htok).
  exists ((λ x, mkCall (length (requests w)) x.1 x.2) <$> cs). split_and!.
  - by rewrite store_after_calls, Hcs.
  - rewrite length_fmap. simpl. by rewrite Hlen.
  - apply Forall_fmap. eapply Forall_impl; [exact Hall|].
    intros [rq' [e|r]] [r' Hr']; simplify_eq/=. by exists r.
  - intros i r Hr. rewrite (Htok i r Hr). simpl. lia.
Qed.

(** ** Iterating again *)

Lemma iter_drain_ends k p pg (buf : list Item) w li sti w1 :
  iter_drain k (mkIterGen p (ItRunning pg buf)) w = (li, sti, w1) →
  sti ≠ OutOfFuel →
  ∃ n l, pages_drain n pg w = (l, sti, w1) ∧
    li = buf ++ concat (items <$> l).
Proof.
  revert pg buf w li. induction k as [|k IH]; intros pg buf w li Hi Hst.
  { simpl in Hi. by simplify_eq. }
  destruct buf as [|x buf].
  - cbn [iter_drain iter_step it_pc it_self] in Hi.
    destruct (pages_next pg w) as [[[[r| |e] pg'] w']|] eqn:Hn; simpl in Hi.
    + destruct (IH _ _ _ _ Hi Hst) as (n & l & Hd & ->).
      exists (S n), (r :: l). cbn [pages_drain]. by rewrite Hn, Hd.
    + simplify_eq. exists 1, []. cbn [pages_drain]. by rewrite Hn.
    + simplify_eq. exists 1, []. cbn [pages_drain]. by rewrite Hn.
    + simplify_eq. exists 1, []. cbn [pages_drain]. by rewrite Hn.
  - cbn [iter_drain iter_step it_pc it_self] in Hi.
    destruct (iter_drain k _ w) as [[li' sti'] w1'] eqn:Hk. simplify_eq.
    destruct (IH _ _ _ _ Hk Hst) as (n & l & Hd & ->).
    by exists n, l.
Qed.

(** X3. A pager that has been iterated to the end is not back at its
    start: it retains the last page, whose token is empty, and
    iterating it again yields the items of that page alone and ends,
    without a call of the invoker. *)
Theorem iterating_again_last_page c m a resp w p w0 k1 l1 w1 :
  __init__ c m a resp w = Some (p, w0) →
  iter_drain k1 (__iter__ p) w0 = (l1, Finished, w1) →
  ∃ rs, retained p w1 = Some rs ∧
    next_page_token rs = ""%string ∧
    ∀ k, length (items rs) + 3 ≤ k →
      iter_drain k (__iter__ p) w1 = (items rs, Finished, w1).
Proof.
  intros Hi Hit. destruct k1 as [|k1]; [by simpl in Hit|].
  cbn [iter_drain iter_step __iter__ it_pc it_self] in Hit.
  destruct (iter_drain_ends _ _ _ _ _ _ _ _ Hit ltac:(done))
    as (n & l & Hd & _).
  destruct n as [|n]; [by simpl in Hd|].
  destruct (fresh_traversal _ _ _ _ _ _ _ _ _ _ _ Hi Hd)
    as (r0 & rq & rs & ms & cs & l' & Ha & Hp & Hq & Hf & -> & -> & Hcs).
  destruct (fetch_loop_status _ _ _ _ _ _ _ _ _ _ _ Hf) as (_ & Hfin & _).
  specialize (Hfin eq_refl).
  pose proof (store_after_pager _ _ _ _ _ _ rq rs ms cs Hp) as Hp1.
  pose proof (store_after_request _ p c m _ _ rq rs ms cs Hq) as Hq1.
  exists rs. split; [by unfold retained; rewrite Hp1|]. split; [done|].
  intros k Hk.
  set (w1 := store_after p c m (length (requests w)) (rq, rs, ms, cs) w0) in *.
  assert (pages_drain 2 (pages p) w1 = ([rs], Finished, w1)) as Hd2.
  { rewrite (pages_drain_created _ _ _ _ _ _ _ _ Hp1 Hq1).
    cbn [fetch_loop]. rewrite Hfin. cbn [truthy].
    by rewrite (store_after_id _ _ _ _ _ _ _ Hp1 Hq1). }
  pose proof (iter_drain_created _ _ _ _ _ _ Hd2) as Hit2.
  rewrite (iter_drain_mono _ k _ _ _ _ _ Hit2).
  - simpl. by rewrite app_nil_r.
  - done.
  - simpl. rewrite app_nil_r. lia.
Qed.

(** ** After a failed fetch *)

Lemma fetch_loop_raised n m req resp ms l e rq rs ms' cs :
  fetch_loop n m req resp ms = (l, Raised e, (rq, rs, ms', cs)) →
  page_token rq = next_page_token rs ∧ next_page_token rs ≠ ""%string.
Proof.
  revert req resp ms l cs. induction n as [|n IH]; intros req resp ms l cs Hf;
    apply fetch_loop_cases in Hf
      as [(?&?&?&?&?&?&?)|[(n'&?&?&?&?&?&?&?&?)|[(n'&e'&?&?&?&?&?&?&?&?)
         |(n'&r&ms1&l1&cs1&?&Hne&Hm&Hl&?&?)]]];
    simplify_eq; [done|].
  by apply (IH _ _ _ _ _ Hl).
Qed.

Lemma set_page_token_same rq :
  set_page_token (page_token rq) rq = rq.
Proof. by destruct rq. Qed.

(** X4. A failed fetch leaves the pager whole: it retains the page
    yielded last, and its request carries the token of that page.  A
    new [pages] generator yields that page again and then makes the
    call that failed once more, on the same request; what that call
    gives is what the generator gives. *)
Theorem retry_after_error c m a resp w p w0 n l e w1 :
  __init__ c m a resp w = Some (p, w0) →
  pages_drain n (pages p) w0 = (l, Raised e, w1) →
  ∃ q rq rs,
    last l = Some rs ∧
    retained p w1 = Some rs ∧
    last (calls w1) = Some (mkCall q rq (inl e)) ∧
    requests w1 !! q = Some rq ∧
    page_token rq = next_page_token rs ∧
    ∀ l2 st2 w2, pages_drain 2 (pages p) w1 = (l2, st2, w2) →
      calls w2 = calls w1 ++ [mkCall q rq (m rq (mstate w1)).1] ∧
      match (m rq (mstate w1)).1 with
      | inl e' => l2 = [rs] ∧ st2 = Raised e'
      | inr r => l2 = [rs; r] ∧ st2 = OutOfFuel
      end.
Proof.
  intros Hi Hd. destruct n as [|n]; [by simpl in Hd|].
  destruct (fresh_traversal _ _ _ _ _ _ _ _ _ _ _ Hi Hd)
    as (r0 & rq & rs & ms & cs & l' & Ha & Hp & Hq & Hf & -> & -> & Hcs).
  destruct (fetch_loop_pages _ _ _ _ _ _ _ _ _ _ _ Hf) as [_ Hlast].
  destruct (fetch_loop_status _ _ _ _ _ _ _ _ _ _ _ Hf)
    as (_ & _ & _ & Hraise & _).
  destruct (Hraise e eq_refl) as (cs' & -> & _ & _).
  destruct (fetch_loop_raised _ _ _ _ _ _ _ _ _ _ _ Hf) as [Htok Hne].
  pose proof (store_after_pager _ _ _ _ _ _ rq rs ms
                (cs' ++ [(rq, inl e)]) Hp) as Hp1.
  pose proof (store_after_request _ p c m _ _ rq rs ms
                (cs' ++ [(rq, inl e)]) Hq) as Hq1.
  exists (length (requests w)), rq, rs. split_and!; try done.
  - by unfold retained; rewrite Hp1.
  - rewrite store_after_calls, fmap_app. simpl.
    by rewrite app_assoc, last_snoc.
  - intros l2 st2 w2 Hd2.
    rewrite (pages_drain_created _ _ _ _ _ _ _ _ Hp1 Hq1) in Hd2.
    rewrite store_after_mstate in *. cbn [fetch_loop] in Hd2.
    apply truthy_nonempty in Hne. rewrite Hne, <- Htok in Hd2.
    rewrite set_page_token_same in Hd2.
    by destruct (m rq ms) as [[e'|r] ms2]; simplify_eq/=.
Qed.

(** ** Generators of one pager, in any order *)

Lemma default_last_cons {A} (x y : A) (l : list A) :
  default x (last (y :: l)) = default y (last l).
Proof. rewrite last_cons. by destruct (last l). Qed.

Lemma resume_each_inv pcs p c m q (r0 : Request') rq cur w :
  pagers w !! p = Some (mkPager c m q cur) →
  requests w !! q = Some rq →
  query rq = query r0 →
  ∃ outs w1 cs,
    resume_each pcs p w = Some (outs, w1) ∧
    calls w1 = calls w ++ cs ∧
    threaded q r0 cur cs ∧
    retained p w1 = Some (default cur (last (fetched cs))) ∧
    pagers w1 !! p = Some (mkPager c m q (default cur (last (fetched cs)))) ∧
    Forall (λ r, r ∈ cur :: fetched cs) (yielded outs).
Proof.
  revert rq cur w. induction pcs as [|pc pcs IH]; intros rq cur w Hp Hq Hquery.
  { exists [], w, []. rewrite app_nil_r. unfold retained. rewrite Hp.
    by split_and!. }
  cbn [resume_each]. destruct pc.
  - change (mkPagesGen p PcCreated) with (pages p).
    rewrite (pages_next_created _ _ _ Hp). simpl.
    destruct (IH rq cur w Hp Hq Hquery)
      as (outs & w1 & cs & Hrun & Hcs & Hthr & Hret & Hpg & Hall).
    rewrite Hrun. exists (Yield cur :: outs), w1, cs. split_and!; try done.
    simpl. constructor; [by left|done].
  - rewrite (pages_next_suspended _ _ _ _ _ _ _ Hp Hq).
    destruct (truthy (next_page_token cur)) eqn:Ht.
    + apply truthy_nonempty in Ht.
      assert (set_page_token (next_page_token cur) rq
              = set_page_token (next_page_token cur) r0) as Hreq.
      { unfold set_page_token. by rewrite Hquery. }
      cbv zeta. rewrite Hreq.
      set (req' := set_page_token (next_page_token cur) r0) in *.
      destruct (m req' (mstate w)) as [[e|r] ms] eqn:Hm.
      * pose proof (store_after_pager _ _ _ _ _ _ req' cur ms
                      [(req', inl e)] Hp) as Hp1.
        pose proof (store_after_request _ p c m _ _ req' cur ms
                      [(req', inl e)] Hq) as Hq1.
        destruct (IH req' cur _ Hp1 Hq1 eq_refl)
          as (outs & w1 & cs & Hrun & Hcs & Hthr & Hret & Hpg & Hall).
        cbn [mbind option_bind]. rewrite Hrun.
        exists (Raise e :: outs), w1, (mkCall q req' (inl e) :: cs).
        split_and!; try done.
        rewrite Hcs, store_after_calls. simpl. by rewrite <- app_assoc.
      * pose proof (store_after_pager _ _ _ _ _ _ req' r ms
                      [(req', inr r)] Hp) as Hp1.
        pose proof (store_after_request _ p c m _ _ req' r ms
                      [(req', inr r)] Hq) as Hq1.
        destruct (IH req' r _ Hp1 Hq1 eq_refl)
          as (outs & w1 & cs & Hrun & Hcs & Hthr & Hret & Hpg & Hall).
        cbn [mbind option_bind]. rewrite Hrun.
        exists (Yield r :: outs), w1, (mkCall q req' (inr r) :: cs).
        split_and!; try done.
        -- rewrite Hcs, store_after_calls. simpl. by rewrite <- app_assoc.
        -- rewrite Hret. unfold fetched. simpl. by rewrite default_last_cons.
        -- rewrite Hpg. unfold fetched. simpl. by rewrite default_last_cons.
        -- unfold fetched in *. simpl. constructor; [by right; left|].
           eapply Forall_impl; [exact Hall|]. intros x Hx. by right.
    + cbn [mbind option_bind].
      destruct (IH rq cur w Hp Hq Hquery)
        as (outs & w1 & cs & Hrun & Hcs & Hthr & Hret & Hpg & Hall).
      rewrite Hrun. by exists (StopIteration :: outs), w1, cs.
  - cbn [pages_next pg_pc mbind option_bind].
    destruct (IH rq cur w Hp Hq Hquery)
      as (outs & w1 & cs & Hrun & Hcs & Hthr & Hret & Hpg & Hall).
    rewrite Hrun. by exists (StopIteration :: outs), w1, cs.
Qed.

(** X5. Whatever generators of a new pager are resumed, and in
    whatever order, no resumption finds the store broken, and the
    calls made form one chain: each is on the pager's own request
    object, the one its [_request] names from construction to the
    end, which is the copy the constructor made and not the caller's
    object; each has the token of the page the invoker returned last
    before it (of the response given to the constructor at first),
    which is never empty.  The pager retains the page returned last,
    and every page yielded is the response given to the constructor
    or a page the invoker returned. *)
Theorem generators_share_one_chain c m a resp w p w0 pcs :
  __init__ c m a resp w = Some (p, w0) →
  ∃ (r0 : Request') q outs w1 cs,
    requests w !! a = Some r0 ∧
    resume_each pcs p w0 = Some (outs, w1) ∧
    calls w1 = calls w ++ cs ∧
    threaded q r0 resp cs ∧
    retained p w1 = Some (default resp (last (fetched cs))) ∧
    Forall (λ r, r ∈ resp :: fetched cs) (yielded outs) ∧
    pagers w0 !! p = Some (mkPager c m q resp) ∧
    pagers w1 !! p = Some (mkPager c m q (default resp (last (fetched cs)))) ∧
    q = length (requests w) ∧
    q ≠ a ∧
    Forall (λ call, Some (call_arg call) = _request <$> pagers w0 !! p) cs.
Proof.
  intros Hi.
  destruct (init_inv _ _ _ _ _ _ _ Hi)
    as (r0 & Ha & -> & Hp & Hq & _ & _ & Hms & Hcs).
  destruct (resume_each_inv pcs _ _ _ _ r0 r0 resp w0 Hp Hq eq_refl)
    as (outs & w1 & cs & Hrun & Hcalls & Hthr & Hret & Hpg & Hall).
  exists r0, (length (requests w)), outs, w1, cs.
  split_and!; try done.
  - by rewrite Hcalls, Hcs.
  - apply lookup_lt_Some in Ha. lia.
  - rewrite Hp. simpl. clear -Hthr. revert resp Hthr.
    induction cs as [|call cs IH]; intros cur Hthr; [constructor|].
    destruct Hthr as (Harg & _ & _ & Hrest).
    constructor; [by rewrite Harg|by eapply IH].
Qed.

(** ** What a traversal depends on, and what it touches *)

Lemma store_after_other_pager w p c m q fin p' :
  p' ≠ p → pagers (store_after p c m q fin w) !! p' = pagers w !! p'.
Proof.
  intros Hne. destruct fin as [[[rq rs] ms] cs]. simpl.
  by apply list_lookup_insert_ne.
Qed.

Lemma pages_drain_store n pc w p c m q rq resp :
  pagers w !! p = Some (mkPager c m q resp) →
  requests w !! q = Some rq →
  ∃ l st fin,
    pages_drain n (mkPagesGen p pc) w = (l, st, store_after p c m q fin w) ∧
    ∀ w', pagers w' !! p = Some (mkPager c m q resp) →
      requests w' !! q = Some rq →
      mstate w' = mstate w →
      pages_drain n (mkPagesGen p pc) w' = (l, st, store_after p c m q fin w').
Proof.
  intros Hp Hq. destruct pc.
  - change (mkPagesGen p PcCreated) with (pages p). destruct n as [|n].
    + exists [], OutOfFuel, (rq, resp, mstate w, []). cbn [pages_drain].
      rewrite (store_after_id _ _ _ _ _ _ _ Hp Hq). split; [done|].
      intros w' Hp' Hq' <-. by rewrite (store_after_id _ _ _ _ _ _ _ Hp' Hq').
    + rewrite (pages_drain_created _ _ _ _ _ _ _ _ Hp Hq).
      destruct (fetch_loop n m rq resp (mstate w)) as [[l st] fin] eqn:Hf.
      exists (resp :: l), st, fin. split; [done|].
      intros w' Hp' Hq' Hms.
      by rewrite (pages_drain_created _ _ _ _ _ _ _ _ Hp' Hq'), Hms, Hf.
  - rewrite (pages_drain_suspended _ _ _ _ _ _ _ _ Hp Hq).
    destruct (fetch_loop n m rq resp (mstate w)) as [[l st] fin] eqn:Hf.
    exists l, st, fin. split; [done|].
    intros w' Hp' Hq' Hms.
    by rewrite (pages_drain_suspended _ _ _ _ _ _ _ _ Hp' Hq'), Hms, Hf.
  - destruct n as [|n].
    + exists [], OutOfFuel, (rq, resp, mstate w, []). cbn [pages_drain].
      rewrite (store_after_id _ _ _ _ _ _ _ Hp Hq). split; [done|].
      intros w' Hp' Hq' <-. by rewrite (store_after_id _ _ _ _ _ _ _ Hp' Hq').
    + exists [], Finished, (rq, resp, mstate w, []).
      cbn [pages_drain pages_next pg_pc].
      rewrite (store_after_id _ _ _ _ _ _ _ Hp Hq). split; [done|].
      intros w' Hp' Hq' <-. by rewrite (store_after_id _ _ _ _ _ _ _ Hp' Hq').
Qed.

(** X6. What a generator of a pager does depends on the store only
    through the pager, its request and the state of the invoker: in
    two stores that agree on these it yields the same pages, ends the
    same way and makes the same calls, and leaves the two stores in
    agreement on them.  It changes no other pager and no other
    request. *)
Theorem traversal_is_local n pc p pg rq w w' l st w1 l' st' w1' :
  pagers w !! p = Some pg →
  pagers w' !! p = Some pg →
  requests w !! _request pg = Some rq →
  requests w' !! _request pg = Some rq →
  mstate w = mstate w' →
  pages_drain n (mkPagesGen p pc) w = (l, st, w1) →
  pages_drain n (mkPagesGen p pc) w' = (l', st', w1') →
  l = l' ∧ st = st' ∧
  pagers w1 !! p = pagers w1' !! p ∧
  requests w1 !! _request pg = requests w1' !! _request pg ∧
  mstate w1 = mstate w1' ∧
  drop (length (calls w)) (calls w1) = drop (length (calls w')) (calls w1') ∧
  (∀ p', p' ≠ p → pagers w1 !! p' = pagers w !! p') ∧
  (∀ b, b ≠ _request pg → requests w1 !! b = requests w !! b).
Proof.
  destruct pg as [c m q resp]. simpl. intros Hp Hp' Hq Hq' Hms Hd Hd'.
  destruct (pages_drain_store n pc _ _ _ _ _ _ _ Hp Hq)
    as (l0 & st0 & [[[rq1 rs1] ms1] cs1] & Hrun & Hother).
  rewrite Hrun in Hd. rewrite (Hother w' Hp' Hq' (eq_sym Hms)) in Hd'.
  simplify_eq. split_and!; try done.
  - by rewrite (store_after_pager _ _ _ _ _ _ _ _ _ _ Hp),
      (store_after_pager _ _ _ _ _ _ _ _ _ _ Hp').
  - by rewrite (store_after_request _ _ _ _ _ _ _ _ _ _ Hq),
      (store_after_request _ _ _ _ _ _ _ _ _ _ Hq').
  - by rewrite !store_after_calls, !drop_app_length.
  - intros p' Hne. by apply store_after_other_pager.
  - intros b Hne. by apply store_after_other_request.
Qed.

(** ** [__repr__] *)

Lemma string_length_append (s t : string) :
  String.length (s +:+ t) = String.length s + String.length t.
Proof. induction s as [|a s IH]; simpl; [done|by rewrite IH]. Qed.

Lemma append_inj_r (s1 s2 t : string) :
  s1 +:+ t = s2 +:+ t → s1 = s2.
Proof.
  revert s2. induction s1 as [|a s1 IH]; intros [|b s2] Heq; simpl in Heq.
  - done.
  - apply (f_equal String.length) in Heq.
    rewrite ?string_length_append in Heq. simpl in Heq.
    rewrite ?string_length_append in Heq. lia.
  - apply (f_equal String.length) in Heq.
    rewrite ?string_length_append in Heq. simpl in Heq.
    rewrite ?string_length_append in Heq. lia.
  - injection Heq as -> Heq. f_equal. by apply IH.
Qed.

(** X7. The text [__repr__] gives for a pager tells the class of the
    pager and what [repr] gives for the response it retains: two
    pagers with the same text are of the same class and retain
    responses with the same [repr]. *)
Theorem repr_tells_class_and_response (repr_response : Response' → string)
    p1 w1 p2 w2 pg1 pg2 :
  pagers w1 !! p1 = Some pg1 →
  pagers w2 !! p2 = Some pg2 →
  __repr__ repr_response p1 w1 = __repr__ repr_response p2 w2 →
  pager_class pg1 = pager_class pg2 ∧
  repr_response (_response pg1) = repr_response (_response pg2).
Proof.
  intros H1 H2. unfold __repr__. rewrite H1, H2. simpl. intros [= Heq].
  destruct (pager_class pg1), (pager_class pg2); simpl in Heq;
    simplify_eq; split; try done.
  all: by eapply (append_inj_r _ _ ">").
Qed.

End PagerMore.

(** * Part VII: more on the gRPC transport *)

Section TransportMore.
Import Grpc.
Context {Credentials Channel Stub Client Ext : Type}.

Abbreviation Cred' := (@CredArg Credentials).
Abbreviation TransportObj' := (@Transport Credentials Channel Stub Client).
Abbreviation Outside' := (@TWorld Credentials Channel Stub Client Ext).
Abbreviation Created' := (@Creation Credentials Channel Stub Client).

Variable base_init : string → Cred' → Ext → (string * Cred') * Ext.
Variable new_channel : string → Cred' → Ext → Channel * Ext.
Variable new_stub : Channel → StubSpec → Ext → Stub * Ext.
Variable new_client : Channel → Ext → Client * Ext.

Implicit Types (t : TransportObj') (w : Outside') (a b : Access)
  (new add : list Created').

Local Abbreviation read := (access new_channel new_stub new_client).
Local Abbreviation reads := (accesses new_channel new_stub new_client).

(** ** What each read records *)

Lemma grpc_channel_log t w ch t' w' :
  grpc_channel new_channel t w = (ch, t', w') →
  created w' = created w ++ channel_part t ch ∧
  _grpc_channel t' = Some ch ∧
  _host t' = _host t ∧ _credentials t' = _credentials t ∧
  _stubs t' = _stubs t ∧
  dict_operations_client t' = dict_operations_client t ∧
  (∀ ch0, _grpc_channel t = Some ch0 → ch0 = ch).
Proof.
  unfold grpc_channel, create_channel, channel_part.
  destruct (_grpc_channel t) as [ch0|] eqn:Hch.
  - intros [= <- <- <-]. rewrite app_nil_r. split_and!; try done.
    by intros ? [= <-].
  - destruct (new_channel _ _ _) as [ch1 e]. by intros [= <- <- <-].
Qed.

Lemma stub_property_log name sp t w s t' w' :
  stub_property new_channel new_stub name sp t w = (s, t', w') →
  _host t' = _host t ∧ _credentials t' = _credentials t ∧
  dict_operations_client t' = dict_operations_client t ∧
  match _stubs t !! name with
  | Some _ => t' = t ∧ w' = w
  | None =>
      ∃ ch, _grpc_channel t' = Some ch ∧
        (∀ ch0, _grpc_channel t = Some ch0 → ch0 = ch) ∧
        _stubs t' = <[name := s]> (_stubs t) ∧
        created w' = created w ++ channel_part t ch ++ [StubCreated ch sp s]
  end.
Proof.
  unfold stub_property.
  destruct (_stubs t !! name) as [s0|] eqn:Hs.
  - by intros [= <- <- <-].
  - destruct (grpc_channel new_channel t w) as [[ch t1] w1] eqn:Hc.
    destruct (grpc_channel_log _ _ _ _ _ Hc)
      as (Hlog & Hch & Hhost & Hcred & Hst & Hops & Hsame).
    destruct (new_stub ch sp (ext w1)) as [s1 e]. intros [= <- <- <-].
    simpl. split_and!; try done. exists ch. split_and!; try done.
    + by rewrite Hst.
    + by rewrite Hlog, <- app_assoc.
Qed.

Lemma operations_client_log t w cl t' w' :
  operations_client new_channel new_client t w = (cl, t', w') →
  _host t' = _host t ∧ _credentials t' = _credentials t ∧
  _stubs t' = _stubs t ∧
  match dict_operations_client t with
  | Some _ => t' = t ∧ w' = w
  | None =>
      ∃ ch, _grpc_channel t' = Some ch ∧
        (∀ ch0, _grpc_channel t = Some ch0 → ch0 = ch) ∧
        dict_operations_client t' = Some cl ∧
        created w' = created w ++ channel_part t ch ++ [ClientCreated ch cl]
  end.
Proof.
  unfold operations_client.
  destruct (dict_operations_client t) as [cl0|] eqn:Hcl.
  - by intros [= <- <- <-].
  - destruct (grpc_channel new_channel t w) as [[ch t1] w1] eqn:Hc.
    destruct (grpc_channel_log _ _ _ _ _ Hc)
      as (Hlog & Hch & Hhost & Hcred & Hst & Hops & Hsame).
    destruct (new_client ch (ext w1)) as [cl1 e]. intros [= <- <- <-].
    simpl. split_and!; try done. exists ch. split_and!; try done.
    by rewrite Hlog, <- app_assoc.
Qed.

(** ** The first read of a new transport *)

(** X8. Without a channel, the constructor hands [credentials] to the
    base class as it is and creates nothing.  The first property read
    then creates the channel, with the host and credentials the base
    class stored, before anything else; a stub property or
    [operations_client] creates its own object next, on that channel,
    with the arguments of that property, and returns it. *)
Theorem channel_created_on_first_read host cred w t w0 :
  Grpc.__init__ base_init host cred None w = (t, w0) →
  created w0 = created w ∧
  _grpc_channel t = None ∧
  (_host t, _credentials t) = (base_init host cred (ext w)).1 ∧
  ∀ a o t1 w1, read a t w0 = (o, t1, w1) →
    ∃ ch,
      _grpc_channel t1 = Some ch ∧
      created w1
      = created w ++ ChannelCreated (_host t) (_credentials t) ch ::
          match o with
          | OChannel _ => []
          | OStub s =>
              match stub_of a with
              | Some (_, sp) => [StubCreated ch sp s]
              | None => []
              end
          | OClient cl => [ClientCreated ch cl]
          end ∧
      (a = GrpcChannel → o = OChannel ch).
Proof.
  unfold Grpc.__init__.
  destruct (base_init host cred (ext w)) as [[h c] e] eqn:Hb.
  intros [= <- <-]. simpl. split_and!; try done.
  intros a o t1 w1 Hr.
  destruct (stub_of a) as [[name sp]|] eqn:Ha.
  - rewrite (read_stub _ _ _ _ _ _ _ _ Ha) in Hr. unfold as_stub in Hr.
    destruct (stub_property _ _ name sp _ _) as [[s t2] w2] eqn:Hs.
    injection Hr as <- <- <-.
    destruct (stub_property_log _ _ _ _ _ _ _ Hs) as (_ & _ & _ & Hlog).
    simpl in Hlog. rewrite lookup_empty in Hlog.
    destruct Hlog as (ch & Hch & _ & _ & Hlog).
    exists ch. split_and!; try done. by intros ->.
  - destruct a; try done; simpl in Hr.
    + destruct (grpc_channel new_channel _ _) as [[ch t2] w2] eqn:Hc.
      injection Hr as <- <- <-.
      destruct (grpc_channel_log _ _ _ _ _ Hc) as (Hlog & Hch & _).
      by exists ch.
    + destruct (operations_client _ _ _ _) as [[cl t2] w2] eqn:Hc.
      injection Hr as <- <- <-.
      destruct (operations_client_log _ _ _ _ _ Hc) as (_ & _ & _ & Hlog).
      simpl in Hlog. destruct Hlog as (ch & Hch & _ & _ & Hlog).
      by exists ch.
Qed.

(** ** One channel for everything *)

Lemma channel_part_on t ch :
  Forall (λ cr : Created', creation_channel cr = ch) (channel_part t ch).
Proof.
  unfold channel_part. destruct (_grpc_channel t); by repeat constructor.
Qed.

Lemma accounted_channel t new ch add :
  accounted t new →
  (∀ ch0, _grpc_channel t = Some ch0 → ch0 = ch) →
  Forall (λ cr, creation_channel cr = ch) add →
  Forall (λ cr, creation_channel cr = ch) (new ++ add).
Proof.
  intros (Hon & Hnone & _) Hsame Hadd. apply Forall_app. split; [|done].
  destruct (_grpc_channel t) as [ch0|] eqn:Hch.
  - rewrite <- (Hsame ch0 eq_refl). by apply Hon.
  - destruct (Hnone eq_refl) as (-> & _). constructor.
Qed.

Lemma read_accounted a t w o t' w' new :
  accounted t new →
  read a t w = (o, t', w') →
  ∃ add, created w' = created w ++ add ∧ accounted t' (new ++ add).
Proof.
  intros Hacc Hr. pose proof Hacc as (Hon & Hnone & Hstubs & Hclient).
  destruct (stub_of a) as [[name sp]|] eqn:Ha.
  - rewrite (read_stub _ _ _ _ _ _ _ _ Ha) in Hr. unfold as_stub in Hr.
    destruct (stub_property _ _ name sp t w) as [[s t1] w1] eqn:Hs.
    injection Hr as <- <- <-.
    destruct (stub_property_log _ _ _ _ _ _ _ Hs) as (_ & _ & Hops & Hlog).
    destruct (_stubs t !! name) as [s0|] eqn:Hs0.
    + destruct Hlog as [-> ->]. exists []. by rewrite !app_nil_r.
    + destruct Hlog as (ch & Hch & Hsame & Hst & Hlog).
      eexists. split; [exact Hlog|]. split_and!.
      * intros ch' Hch'. assert (ch' = ch) as -> by congruence.
        apply (accounted_channel t); [done..|].
        apply Forall_app. split; [apply channel_part_on|by repeat constructor].
      * intros Hch'. congruence.
      * intros b nb spb s' Hb Hlook. rewrite Hst in Hlook.
        destruct (decide (nb = name)) as [->|Hne].
        -- assert (b = a) as -> by (eapply stub_of_inj; eauto).
           rewrite lookup_insert_eq in Hlook. simplify_eq.
           exists ch. rewrite !elem_of_app, list_elem_of_singleton. auto.
        -- rewrite lookup_insert_ne in Hlook by done.
           destruct (Hstubs b nb spb s' Hb Hlook) as [ch' Hin].
           exists ch'. rewrite elem_of_app. auto.
      * intros cl Hcl. rewrite Hops in Hcl.
        destruct (Hclient cl Hcl) as [ch' Hin].
        exists ch'. rewrite elem_of_app. auto.
  - destruct a; try done; simpl in Hr.
    + destruct (grpc_channel new_channel t w) as [[ch t1] w1] eqn:Hc.
      injection Hr as <- <- <-.
      destruct (grpc_channel_log _ _ _ _ _ Hc)
        as (Hlog & Hch & _ & _ & Hst & Hops & Hsame).
      eexists. split; [exact Hlog|]. split_and!.
      * intros ch' Hch'. assert (ch' = ch) as -> by congruence.
        apply (accounted_channel t); [done..|]. apply channel_part_on.
      * intros Hch'. congruence.
      * intros b nb spb s' Hb Hlook. rewrite Hst in Hlook.
        destruct (Hstubs b nb spb s' Hb Hlook) as [ch' Hin].
        exists ch'. rewrite elem_of_app. auto.
      * intros cl Hcl. rewrite Hops in Hcl.
        destruct (Hclient cl Hcl) as [ch' Hin].
        exists ch'. rewrite elem_of_app. auto.
    + destruct (operations_client new_channel new_client t w)
        as [[cl t1] w1] eqn:Hc.
      injection Hr as <- <- <-.
      destruct (operations_client_log _ _ _ _ _ Hc) as (_ & _ & Hst & Hlog).
      destruct (dict_operations_client t) as [cl0|] eqn:Hcl0.
      * destruct Hlog as [-> ->]. exists []. by rewrite !app_nil_r.
      * destruct Hlog as (ch & Hch & Hsame & Hcl & Hlog).
        eexists. split; [exact Hlog|]. split_and!.
        -- intros ch' Hch'. assert (ch' = ch) as -> by congruence.
           apply (accounted_channel t); [done..|].
           apply Forall_app.
           split; [apply channel_part_on|by repeat constructor].
        -- intros Hch'. congruence.
        -- intros b nb spb s' Hb Hlook. rewrite Hst in Hlook.
           destruct (Hstubs b nb spb s' Hb Hlook) as [ch' Hin].
           exists ch'. rewrite elem_of_app. auto.
        -- intros cl' Hcl'. rewrite Hcl in Hcl'. simplify_eq.
           exists ch. rewrite !elem_of_app, list_elem_of_singleton. auto.
Qed.

Lemma reads_accounted l t w os t' w' new :
  accounted t new →
  reads l t w = (os, t', w') →
  ∃ add, created w' = created w ++ add ∧ accounted t' (new ++ add) ∧
    ∀ i a o, l !! i = Some a → os !! i = Some o → cached a t' = Some o.
Proof.
  revert t w os new. induction l as [|a0 l IH]; intros t w os new Hacc Hr.
  - simpl in Hr. simplify_eq. exists []. by rewrite !app_nil_r.
  - cbn [accesses] in Hr.
    destruct (read a0 t w) as [[o0 t1] w1] eqn:Ha.
    destruct (reads l t1 w1) as [[os' t2] w2] eqn:Hl.
    injection Hr as <- <- <-.
    destruct (read_accounted _ _ _ _ _ _ _ Hacc Ha) as (add1 & Hlog1 & Hacc1).
    destruct (IH _ _ _ _ Hacc1 Hl) as (add2 & Hlog2 & Hacc2 & Hret).
    exists (add1 ++ add2). rewrite Hlog2, Hlog1, !app_assoc.
    split_and!; try done.
    intros [|i] a o Hi Ho; simplify_eq/=; [|by eapply Hret].
    destruct (read_spec _ _ _ _ _ _ _ _ _ Ha) as (Hnew & _).
    destruct (reads_spec _ _ _ _ _ _ _ _ _ Hl) as (Hkeep & _).
    by destruct (Hkeep a o Hnew).
Qed.

(** X9. Whatever properties of a transport are read after
    construction, everything it has created was created on one
    channel, the one it holds: the channel given to the constructor
    when there was one.  Each stub returned was created with the path
    and serializers of its property, and a read always leaves the
    transport with a channel. *)
Theorem one_channel_for_everything host cred channel w t w0 l os t1 w1 :
  Grpc.__init__ base_init host cred channel w = (t, w0) →
  reads l t w0 = (os, t1, w1) →
  ∃ new, created w1 = created w ++ new ∧
    (∀ ch, _grpc_channel t1 = Some ch →
       Forall (λ cr, creation_channel cr = ch) new) ∧
    (∀ ch, channel = Some ch → _grpc_channel t1 = Some ch) ∧
    (l ≠ [] → is_Some (_grpc_channel t1)) ∧
    (∀ i a name sp, l !! i = Some a → stub_of a = Some (name, sp) →
       ∃ s ch, os !! i = Some (OStub s) ∧ StubCreated ch sp s ∈ new) ∧
    (∀ i, l !! i = Some OperationsClientProperty →
       ∃ cl ch, os !! i = Some (OClient cl) ∧ ClientCreated ch cl ∈ new) ∧
    (∀ i, l !! i = Some GrpcChannel →
       ∃ ch, os !! i = Some (OChannel ch) ∧ _grpc_channel t1 = Some ch).
Proof.
  intros Hi Hr.
  destruct (init_spec _ _ _ _ _ _ _ Hi) as (Hch & Hst & Hops & Hcr & _).
  assert (accounted t []) as Hacc.
  { split_and!.
    - by constructor.
    - done.
    - intros a name sp s _. by rewrite Hst, lookup_empty.
    - intros cl. by rewrite Hops. }
  destruct (reads_accounted _ _ _ _ _ _ _ Hacc Hr)
    as (new & Hlog & (Hon & Hnone & Hstubs & Hclient) & Hret).
  simpl in *.
  assert (length os = length l) as Hlen.
  { clear -Hr. revert t w0 os Hr. induction l as [|a l IH]; intros t w os Hr.
    - simpl in Hr. by simplify_eq.
    - cbn [accesses] in Hr.
      destruct (read a t w) as [[o t2] w2].
      destruct (reads l t2 w2) as [[os' t3] w3] eqn:Hl.
      injection Hr as <- <- <-. simpl. by rewrite (IH _ _ _ Hl). }
  assert (∀ i a, l !! i = Some a → ∃ o, os !! i = Some o ∧ cached a t1 = Some o)
    as Hobj.
  { intros i a Hia. destruct (os !! i) as [o|] eqn:Ho.
    - exists o. split; [done|]. by eapply Hret.
    - apply lookup_ge_None in Ho. apply lookup_lt_Some in Hia. lia. }
  exists new. split_and!.
  - by rewrite Hlog, Hcr.
  - done.
  - intros ch ->.
    destruct (reads_spec _ _ _ _ _ _ _ _ _ Hr) as (Hkeep & _).
    destruct (Hkeep GrpcChannel (OChannel ch)) as [Hc _].
    { unfold cached; simpl. by rewrite Hch. }
    unfold cached in Hc; simpl in Hc.
    by destruct (_grpc_channel t1); simplify_eq/=.
  - intros Hl. destruct l as [|a l]; [done|].
    destruct (Hobj 0 a eq_refl) as (o & _ & Hc).
    destruct (_grpc_channel t1) as [ch|] eqn:Hch1; [by eexists|].
    destruct (Hnone eq_refl) as (_ & Hst1 & Hops1).
    unfold cached in Hc. rewrite Hst1, Hops1, Hch1 in Hc.
    destruct (stub_of a) as [[name sp]|]; [by rewrite lookup_empty in Hc|].
    by destruct a.
  - intros i a name sp Hia Ha. destruct (Hobj i a Hia) as (o & Ho & Hc).
    unfold cached in Hc. rewrite Ha in Hc.
    destruct (_stubs t1 !! name) as [s|] eqn:Hs; simplify_eq/=.
    destruct (Hstubs a name sp s Ha Hs) as [ch Hin]. by exists s, ch.
  - intros i Hia. destruct (Hobj i _ Hia) as (o & Ho & Hc).
    unfold cached in Hc. simpl in Hc.
    destruct (dict_operations_client t1) as [cl|] eqn:Hcl; simplify_eq/=.
    destruct (Hclient cl eq_refl) as [ch Hin]. by exists cl, ch.
  - intros i Hia. destruct (Hobj i _ Hia) as (o & Ho & Hc).
    unfold cached in Hc. simpl in Hc.
    destruct (_grpc_channel t1) as [ch|] eqn:Hch1; simplify_eq/=.
    by exists ch.
Qed.

(** ** The table of stubs *)

(** X10. The seven stub properties are told apart by their keys in
    [_stubs] and by their RPC paths: no two share either.  Each path
    is the service's prefix followed by the key in capitalised
    words, and each request serializer is that of the request
    message of that name. *)
Theorem stub_table_consistent a name sp :
  stub_of a = Some (name, sp) →
  path sp
  = ("/google.cloud.aiplatform.v1beta1.EndpointService/" +:+ camel name)%string ∧
  request_serializer sp
  = ("endpoint_service." +:+ camel name +:+ "Request.serialize")%string ∧
  ∀ b name' sp', stub_of b = Some (name', sp') →
    name' = name ∨ path sp' = path sp → b = a.
Proof.
  intros Ha. split_and!.
  - destruct a; simplify_eq/=; reflexivity.
  - destruct a; simplify_eq/=; reflexivity.
  - intros b name' sp' Hb Hsame. by eapply stub_of_inj.
Qed.

End TransportMore.

(** * Part VIII: the further theorems at work *)

Section MoreWitnesses.
Import Pager Examples.

Lemma first_page_before_any_call_witness :
  __init__ ListEndpointsPager invoker 0 page1 world0
  = Some (0, built invoker page1) ∧
  1 ≤ length (items page1) ∧
  iter_drain (2 + 1) (__iter__ 0) (built invoker page1)
  = (take 1 (items page1), OutOfFuel, built invoker page1) ∧
  calls (built invoker page1) = calls world0 ∧
  mstate (built invoker page1) = mstate world0.
Proof.
  split; [reflexivity|]. split; [simpl; lia|].
  apply (first_page_before_any_call ListEndpointsPager invoker 0 page1
           world0 0 (built invoker page1) 1); [reflexivity|simpl; lia].
Defined.

Lemma finished_traversal_calls_witness :
  __init__ ListEndpointsPager invoker 0 page1 world0
  = Some (0, built invoker page1) ∧
  pages_drain 3 (pages 0) (built invoker page1)
  = ([page1; page2], Finished, world2) ∧
  ∃ cs, calls world2 = calls world0 ++ cs ∧
    S (length cs) = length [page1; page2] ∧
    Forall (λ call, ∃ r, call_result call = inr r) cs ∧
    ∀ i r, [page1; page2] !! i = Some r →
      (next_page_token r = ""%string ↔ S i = length [page1; page2]).
Proof.
  split; [reflexivity|]. split; [reflexivity|].
  apply (finished_traversal_calls ListEndpointsPager invoker 0 page1 world0
           0 (built invoker page1) 3 [page1; page2] world2); reflexivity.
Defined.

Lemma iterating_again_last_page_witness :
  __init__ ListEndpointsPager invoker 0 page1 world0
  = Some (0, built invoker page1) ∧
  iter_drain 7 (__iter__ 0) (built invoker page1)
  = ([1; 2; 3], Finished, world2) ∧
  ∃ rs, retained 0 world2 = Some rs ∧
    next_page_token rs = ""%string ∧
    ∀ k, length (items rs) + 3 ≤ k →
      iter_drain k (__iter__ 0) world2 = (items rs, Finished, world2).
Proof.
  split; [reflexivity|]. split; [reflexivity|].
  apply (iterating_again_last_page ListEndpointsPager invoker 0 page1 world0
           0 (built invoker page1) 7 [1; 2; 3] world2); reflexivity.
Defined.

Lemma retry_after_error_witness :
  __init__ ListEndpointsPager failing 0 page1 world0
  = Some (0, built failing page1) ∧
  pages_drain 3 (pages 0) (built failing page1)
  = ([page1], Raised "unavailable"%string, world_failed) ∧
  ∃ q rq rs,
    last [page1] = Some rs ∧
    retained 0 world_failed = Some rs ∧
    last (calls world_failed)
    = Some (mkCall q rq (inl "unavailable"%string)) ∧
    requests world_failed !! q = Some rq ∧
    page_token rq = next_page_token rs ∧
    ∀ l2 st2 w2, pages_drain 2 (pages 0) world_failed = (l2, st2, w2) →
      calls w2
      = calls world_failed
        ++ [mkCall q rq (failing rq (mstate world_failed)).1] ∧
      match (failing rq (mstate world_failed)).1 with
      | inl e' => l2 = [rs] ∧ st2 = Raised e'
      | inr r => l2 = [rs; r] ∧ st2 = OutOfFuel
      end.
Proof.
  split; [reflexivity|]. split; [reflexivity|].
  apply (retry_after_error ListEndpointsPager failing 0 page1 world0 0
           (built failing page1) 3 [page1] "unavailable"%string world_failed);
    reflexivity.
Defined.

Lemma generators_share_one_chain_witness :
  __init__ ListEndpointsPager chain 0 pageA world0
  = Some (0, built chain pageA) ∧
  resume_each [PcCreated; PcCreated; PcSuspended; PcSuspended; PcSuspended]
    0 (built chain pageA)
  = Some ([Yield pageA; Yield pageA; Yield pageB; Yield pageC; StopIteration],
          world_chain) ∧
  _request <$> pagers (built chain pageA) !! 0 = Some 1 ∧
  _request <$> pagers world_chain !! 0 = Some 1 ∧
  call_arg <$> calls world_chain = [1; 1] ∧
  ∃ (r0 : @ListRequest string) q outs w1 cs,
    requests world0 !! 0 = Some r0 ∧
    resume_each [PcCreated; PcCreated; PcSuspended; PcSuspended; PcSuspended]
      0 (built chain pageA) = Some (outs, w1) ∧
    calls w1 = calls world0 ++ cs ∧
    threaded q r0 pageA cs ∧
    retained 0 w1 = Some (default pageA (last (fetched cs))) ∧
    Forall (λ r, r ∈ pageA :: fetched cs) (yielded outs) ∧
    pagers (built chain pageA) !! 0
    = Some (mkPager ListEndpointsPager chain q pageA) ∧
    pagers w1 !! 0
    = Some (mkPager ListEndpointsPager chain q
              (default pageA (last (fetched cs)))) ∧
    q = length (requests world0) ∧
    q ≠ 0 ∧
    Forall (λ call, Some (call_arg call)
                    = _request <$> pagers (built chain pageA) !! 0) cs.
Proof.
  split_and!; try reflexivity.
  apply (generators_share_one_chain ListEndpointsPager chain 0 pageA world0
           0 (built chain pageA)). reflexivity.
Defined.

Lemma traversal_is_local_witness :
  ∃ w1 w1',
    pagers (built invoker page1) !! 0
    = Some (mkPager ListEndpointsPager invoker 1 page1) ∧
    pagers (caller_assign 0 request1 (built invoker page1)) !! 0
    = Some (mkPager ListEndpointsPager invoker 1 page1) ∧
    requests (built invoker page1) !! 1 = Some request0 ∧
    requests (caller_assign 0 request1 (built invoker page1)) !! 1
    = Some request0 ∧
    mstate (built invoker page1)
    = mstate (caller_assign 0 request1 (built invoker page1)) ∧
    pages_drain 3 (pages 0) (built invoker page1)
    = ([page1; page2], Finished, w1) ∧
    pages_drain 3 (pages 0) (caller_assign 0 request1 (built invoker page1))
    = ([page1; page2], Finished, w1') ∧
    pagers w1 !! 0 = pagers w1' !! 0 ∧
    requests w1 !! 1 = requests w1' !! 1 ∧
    mstate w1 = mstate w1'.
Proof.
  eexists _, _.
  do 7 (split; [reflexivity|]).
  pose proof (traversal_is_local 3 PcCreated 0
                (mkPager ListEndpointsPager invoker 1 page1) request0
                (built invoker page1)
                (caller_assign 0 request1 (built invoker page1))
                [page1; page2] Finished _ [page1; page2] Finished _
                eq_refl eq_refl eq_refl eq_refl eq_refl eq_refl eq_refl)
    as (_ & _ & Hp & Hq & Hms & _).
  exact (conj Hp (conj Hq Hms)).
Defined.

Lemma repr_tells_class_and_response_witness :
  pagers (built invoker page1) !! 0
  = Some (mkPager ListEndpointsPager invoker 1 page1) ∧
  pagers (built failing page1) !! 0
  = Some (mkPager ListEndpointsPager failing 1 page1) ∧
  __repr__ next_page_token 0 (built invoker page1)
  = __repr__ next_page_token 0 (built failing page1) ∧
  pager_class (mkPager ListEndpointsPager invoker 1 page1)
  = pager_class (mkPager ListEndpointsPager failing 1 page1) ∧
  next_page_token
    (_response (mkPager ListEndpointsPager invoker 1 page1))
  = next_page_token
      (_response (mkPager ListEndpointsPager failing 1 page1)).
Proof.
  do 3 (split; [reflexivity|]).
  apply (repr_tells_class_and_response next_page_token
           0 (built invoker page1) 0 (built failing page1)
           (mkPager ListEndpointsPager invoker 1 page1)
           (mkPager ListEndpointsPager failing 1 page1)); reflexivity.
Defined.

Lemma channel_created_on_first_read_witness :
  ∃ t,
    Grpc.__init__ base_init "aiplatform.googleapis.com"
      (Grpc.CObj "key"%string) None tworld0 = (t, tworld0) ∧
    Grpc.created tworld0 = Grpc.created tworld0 ∧
    Grpc._grpc_channel t = None ∧
    (Grpc._host t, Grpc._credentials t)
    = (base_init "aiplatform.googleapis.com" (Grpc.CObj "key"%string)
         (Grpc.ext tworld0)).1 ∧
    ∀ a o t1 w1,
      Grpc.access new_channel new_stub new_client a t tworld0 = (o, t1, w1) →
      ∃ ch,
        Grpc._grpc_channel t1 = Some ch ∧
        Grpc.created w1
        = Grpc.created tworld0
          ++ Grpc.ChannelCreated (Grpc._host t) (Grpc._credentials t) ch ::
             match o with
             | Grpc.OChannel _ => []
             | Grpc.OStub s =>
                 match Grpc.stub_of a with
                 | Some (_, sp) => [Grpc.StubCreated ch sp s]
                 | None => []
                 end
             | Grpc.OClient cl => [Grpc.ClientCreated ch cl]
             end ∧
        (a = Grpc.GrpcChannel → o = Grpc.OChannel ch).
Proof.
  eexists. split; [reflexivity|].
  apply (channel_created_on_first_read base_init new_channel new_stub
           new_client "aiplatform.googleapis.com" (Grpc.CObj "key"%string)
           tworld0 _ tworld0 eq_refl).
Defined.

Lemma one_channel_for_everything_witness :
  ∃ t os t1 w1,
    Grpc.__init__ base_init "aiplatform.googleapis.com"
      (Grpc.CObj "key"%string) None tworld0 = (t, tworld0) ∧
    Grpc.accesses new_channel new_stub new_client
      [Grpc.ListEndpoints; Grpc.GrpcChannel; Grpc.OperationsClientProperty;
       Grpc.ListEndpoints] t tworld0 = (os, t1, w1) ∧
    os = [Grpc.OStub 101; Grpc.OChannel 100; Grpc.OClient 102;
          Grpc.OStub 101] ∧
    ∃ new, Grpc.created w1 = Grpc.created tworld0 ++ new ∧
      (∀ ch, Grpc._grpc_channel t1 = Some ch →
         Forall (λ cr, Grpc.creation_channel cr = ch) new) ∧
      (∀ ch, @None nat = Some ch → Grpc._grpc_channel t1 = Some ch) ∧
      ([Grpc.ListEndpoints; Grpc.GrpcChannel; Grpc.OperationsClientProperty;
        Grpc.ListEndpoints] ≠ [] → is_Some (Grpc._grpc_channel t1)) ∧
      (∀ i a name sp,
         [Grpc.ListEndpoints; Grpc.GrpcChannel;
          Grpc.OperationsClientProperty; Grpc.ListEndpoints] !! i = Some a →
         Grpc.stub_of a = Some (name, sp) →
         ∃ s ch, os !! i = Some (Grpc.OStub s) ∧
           Grpc.StubCreated ch sp s ∈ new) ∧
      (∀ i,
         [Grpc.ListEndpoints; Grpc.GrpcChannel;
          Grpc.OperationsClientProperty; Grpc.ListEndpoints] !! i
         = Some Grpc.OperationsClientProperty →
         ∃ cl ch, os !! i = Some (Grpc.OClient cl) ∧
           Grpc.ClientCreated ch cl ∈ new) ∧
      (∀ i,
         [Grpc.ListEndpoints; Grpc.GrpcChannel;
          Grpc.OperationsClientProperty; Grpc.ListEndpoints] !! i
         = Some Grpc.GrpcChannel →
         ∃ ch, os !! i = Some (Grpc.OChannel ch) ∧
           Grpc._grpc_channel t1 = Some ch).
Proof.
  eexists _, _, _, _.
  split; [reflexivity|]. split; [reflexivity|]. split; [reflexivity|].
  eapply (one_channel_for_everything base_init new_channel new_stub
            new_client "aiplatform.googleapis.com" (Grpc.CObj "key"%string)
            None tworld0); reflexivity.
Defined.

Lemma stub_table_consistent_witness :
  Grpc.stub_of Grpc.ListEndpoints
  = Some ("list_endpoints"%string, Grpc.list_endpoints_stub) ∧
  Grpc.path Grpc.list_endpoints_stub
  = ("/google.cloud.aiplatform.v1beta1.EndpointService/"
     +:+ Grpc.camel "list_endpoints")%string ∧
  Grpc.request_serializer Grpc.list_endpoints_stub
  = ("endpoint_service." +:+ Grpc.camel "list_endpoints"
     +:+ "Request.serialize")%string ∧
  ∀ b name' sp', Grpc.stub_of b = Some (name', sp') →
    name' = "list_endpoints"%string
    ∨ Grpc.path sp' = Grpc.path Grpc.list_endpoints_stub →
    b = Grpc.ListEndpoints.
Proof.
  split; [reflexivity|].
  apply (stub_table_consistent Grpc.ListEndpoints "list_endpoints"
           Grpc.list_endpoints_stub). reflexivity.
Defined.

End MoreWitnesses.
